(** * ImageGrouper.js: grouping images on blank delimiter images

    A shallow embedding of [src/ImageGrouper.js] and the properties of its
    colour helpers ([hexToRgb], [colorDifference]), of the blank-image
    classifier ([isBlankImage]) and of the grouping pass ([groupImages]).

    Numbers.  Image dimensions, pixel channels and parsed colour channels are
    JavaScript integers and are modelled in [Z]; [Math.floor(a / d)] of such
    integers is the floor division of [Z].  The quotient
    [totalDiff / samplePoints.length] and the thresholds are modelled as exact
    rationals in [Q], and the result of [Math.sqrt] as a real number: the
    rounding of doubles is left out of the model.

    Receivers.  [hexToRgb] and [colorDifference] read nothing of [this] and
    are functions of their arguments alone.  The classifier and the grouping
    pass keep their receiver, the grouper whose configuration they are called
    on.

    Strings are sequences of one-byte characters. *)

From Stdlib Require Import ZArith QArith List Bool Lia Lra.
From Stdlib Require Import Ascii String DecimalString DecimalNat.
From Stdlib Require Import Reals.
Import ListNotations.

Local Open Scope string_scope.
Local Open Scope list_scope.
Local Open Scope Z_scope.

(** ** JavaScript values used by the library *)

Module JS.

(** [a || b] on a possibly missing ([undefined]) operand: the left operand
    when it is truthy, the right one otherwise. *)
Definition or_else {A : Type} (truthy : A -> bool) (a : option A) (b : A) : A :=
  match a with
  | Some v => if truthy v then v else b
  | None => b
  end.

(** A default parameter value [x = d]: used exactly when the argument is
    [undefined]. *)
Definition default_arg {A : Type} (d : A) (a : option A) : A :=
  match a with
  | Some v => v
  | None => d
  end.

(** Truthiness: the empty string, the number 0 and [false] are falsy. *)
Definition truthy_string (s : string) : bool :=
  match s with
  | EmptyString => false
  | String _ _ => true
  end.

Definition truthy_number (q : Q) : bool := negb (Qeq_bool q 0).

Definition truthy_bool (b : bool) : bool := b.

(** Template-literal rendering of a non-negative integer. *)
Definition number_to_string (n : nat) : string :=
  NilEmpty.string_of_uint (Nat.to_uint n).

End JS.

(** ** Regular expressions

    A backtracking matcher for the fragment of JavaScript regular expressions
    that the library's pattern uses: the anchors, literal characters,
    character classes, the greedy [?], sequencing, bounded repetition and
    capturing groups, under the [i] flag. *)

Module RegExp.

Inductive ClassAtom : Type :=
| Range (lo hi : ascii)        (* a-f *)
| Digit.                       (* \d  *)

Inductive regex : Type :=
| Bol                          (* ^ *)
| Eol                          (* $ *)
| Eps
| Lit (c : ascii)
| Class (atoms : list ClassAtom)
| Opt (r : regex)              (* r? *)
| Seq (r1 r2 : regex)
| Group (r : regex).           (* ( r ) *)

(** [r{n}] *)
Fixpoint Rep (n : nat) (r : regex) : regex :=
  match n with
  | O => Eps
  | S n' => Seq r (Rep n' r)
  end.

Definition code (c : ascii) : N := N_of_ascii c.

Definition between (lo hi : N) (c : ascii) : bool :=
  (N.leb lo (code c) && N.leb (code c) hi)%bool.

(** Canonicalize under the [i] flag: the upper-case form of a character.
    Letters outside a-z have no upper-case form among the one-byte
    characters that the sets of the pattern hold, and are left as they
    are. *)
Definition canonicalize (ignoreCase : bool) (c : ascii) : ascii :=
  if ignoreCase then
    if between 97 122 c then ascii_of_N (code c - 32) else c
  else c.

(** The characters of the range [lo-hi], in order. *)
Definition chars_of_range (lo hi : ascii) : list ascii :=
  map (fun k => ascii_of_N (code lo + N.of_nat k))
      (seq 0 (N.to_nat (N.succ (code hi) - code lo))).

Definition atom_chars (a : ClassAtom) : list ascii :=
  match a with
  | Range lo hi => chars_of_range lo hi
  | Digit => chars_of_range "0" "9"
  end.

(** A character matches a set when some member of the set has the same
    canonical form. *)
Definition class_matches (ignoreCase : bool) (atoms : list ClassAtom)
           (c : ascii) : bool :=
  existsb
    (fun a =>
       existsb (fun m => Ascii.eqb (canonicalize ignoreCase m)
                                   (canonicalize ignoreCase c))
               (atom_chars a))
    atoms.

Section Matcher.

Variable ignoreCase : bool.

(** [pos] is the index of the next character in the whole input, [s] the
    rest of the input from there, [caps] the captures made so far, and
    [k] the continuation that matches what follows. *)
Fixpoint rmatch (r : regex) (pos : nat) (s : string) (caps : list string)
         (k : nat -> string -> list string -> option (list string))
  : option (list string) :=
  match r with
  | Bol => if Nat.eqb pos 0 then k pos s caps else None
  | Eol => match s with
           | EmptyString => k pos s caps
           | String _ _ => None
           end
  | Eps => k pos s caps
  | Lit c => match s with
             | String c' s' =>
                 if Ascii.eqb (canonicalize ignoreCase c)
                              (canonicalize ignoreCase c')
                 then k (S pos) s' caps else None
             | EmptyString => None
             end
  | Class atoms => match s with
                   | String c' s' =>
                       if class_matches ignoreCase atoms c'
                       then k (S pos) s' caps else None
                   | EmptyString => None
                   end
  | Opt r' => match rmatch r' pos s caps k with
              | Some m => Some m
              | None => k pos s caps
              end
  | Seq r1 r2 =>
      rmatch r1 pos s caps (fun pos' s' caps' => rmatch r2 pos' s' caps' k)
  | Group r' =>
      rmatch r' pos s caps
             (fun pos' s' caps' =>
                k pos' s' (caps' ++ [substring 0 (pos' - pos) s]))
  end.

(** One attempt at index [pos]; the result holds the whole match at
    index 0 and the captures after it. *)
Definition match_at (r : regex) (pos : nat) (s : string)
  : option (list string) :=
  rmatch r pos s []
         (fun pos' _ caps => Some (substring 0 (pos' - pos) s :: caps)).

(** [exec] without the [g] flag: the first index at which the pattern
    matches. *)
Fixpoint exec_from (r : regex) (pos : nat) (s : string)
  : option (list string) :=
  match match_at r pos s with
  | Some m => Some m
  | None => match s with
            | String _ s' => exec_from r (S pos) s'
            | EmptyString => None
            end
  end.

End Matcher.

Record RegExp : Type := mkRegExp { pattern : regex; flag_i : bool }.

Definition exec (re : RegExp) (s : string) : option (list string) :=
  exec_from (flag_i re) (pattern re) 0 s.

(** [result[i]] *)
Definition capture (m : list string) (i : nat) : string := nth i m "".

End RegExp.

(** ** Colours *)

Record RGB : Type := mkRGB { r : Z; g : Z; b : Z }.

(** The value of a hexadecimal digit, as [parseInt] reads it. *)
Definition hex_digit_value (c : ascii) : option Z :=
  let n := Z.of_N (N_of_ascii c) in
  if (48 <=? n) && (n <=? 57) then Some (n - 48)
  else if (97 <=? n) && (n <=? 102) then Some (n - 87)
  else if (65 <=? n) && (n <=? 70) then Some (n - 55)
  else None.

(** [parseInt(s, 16)] on a string that carries no white space, sign or
    [0x] prefix: the value of the longest prefix of hexadecimal digits.
    JavaScript yields [NaN] when that prefix is empty; the captures of
    [hexPattern] always start with a digit (see [hexToRgb_captures_parse]),
    and the model yields 0 there. *)
Fixpoint parseInt16_from (acc : Z) (s : string) : Z :=
  match s with
  | EmptyString => acc
  | String c s' =>
      match hex_digit_value c with
      | Some d => parseInt16_from (16 * acc + d) s'
      | None => acc
      end
  end.

Definition parseInt16 (s : string) : Z := parseInt16_from 0 s.

(** ** Images

    [isBlankImage] draws the image at the origin of a canvas of the image's
    own size and reads single pixels back with
    [ctx.getImageData(x, y, 1, 1).data], an array of four channel values.
    An image is modelled by its declared size and by what such a read
    yields at each coordinate. *)

Record PixelData : Type :=
  mkPixel { data_0 : Z; data_1 : Z; data_2 : Z; data_3 : Z }.

Record Image : Type :=
  mkImage { width : Z; height : Z; getImageData : Z -> Z -> PixelData }.

Record Point : Type := mkPoint { x : Z; y : Z }.

(** [array.map((item, index) => ...)] and [array.forEach] with an index. *)
Fixpoint mapi_from {A B : Type} (i : nat) (f : A -> nat -> B) (l : list A)
  : list B :=
  match l with
  | [] => []
  | a :: l' => f a i :: mapi_from (S i) f l'
  end.

Definition mapi {A B : Type} (f : A -> nat -> B) (l : list A) : list B :=
  mapi_from 0 f l.

Module Import Grouper.

Import RegExp.

(** The configuration object of the constructor and its caller-supplied
    part, in which every key may be missing. *)
Record Config : Type :=
  mkConfig { delimiterColor : string;
             colorThreshold : Q;
             groupFolder : bool;
             namingScheme : string }.

Record UserConfig : Type :=
  mkUserConfig { user_delimiterColor : option string;
                 user_colorThreshold : option Q;
                 user_groupFolder : option bool;
                 user_namingScheme : option string }.

Definition noConfig : UserConfig := mkUserConfig None None None None.

Record ImageGrouper : Type := mkImageGrouper { config : Config }.

(** [{ defaults, ...config }]: a key of [config] replaces the default. *)
Definition spread {A : Type} (default : A) (supplied : option A) : A :=
  match supplied with
  | Some v => v
  | None => default
  end.

Definition constructor (config : UserConfig) : ImageGrouper :=
  {| config :=
      {| delimiterColor := spread "#FFFFFF" (user_delimiterColor config);
         colorThreshold := spread 10%Q (user_colorThreshold config);
         groupFolder := spread true (user_groupFolder config);
         namingScheme := spread "group" (user_namingScheme config) |} |}.

(** The [options] argument of [groupImages], in which every key may be
    missing, and the [config] object that [groupImages] builds from it. *)
Record Options : Type :=
  mkOptions { opt_blankColor : option string;
              opt_threshold : option Q;
              opt_saveGroups : option bool }.

Definition noOptions : Options := mkOptions None None None.

Record CallConfig : Type :=
  mkCallConfig { cfg_blankColor : string;
                 cfg_threshold : Q;
                 cfg_saveGroups : bool }.

(** *** Colour helpers *)

(** [/^#?([a-f\d]{2})([a-f\d]{2})([a-f\d]{2})$/i] *)
Definition hexPair : regex := Group (Rep 2 (Class [Range "a" "f"; Digit])).

Definition hexPattern : RegExp :=
  mkRegExp
    (Seq Bol (Seq (Opt (Lit "#")) (Seq hexPair (Seq hexPair (Seq hexPair Eol)))))
    true.

Definition hexToRgb (hex : string) : RGB :=
  match exec hexPattern hex with
  | Some result =>
      {| r := parseInt16 (capture result 1);
         g := parseInt16 (capture result 2);
         b := parseInt16 (capture result 3) |}
  | None => {| r := 255; g := 255; b := 255 |}
  end.

(** [Math.sqrt] of the sum of the three squares, as the real square root of
    that integer. *)
Definition colorDifference (hex1 hex2 : string) : R :=
  let rgb1 := hexToRgb hex1 in
  let rgb2 := hexToRgb hex2 in
  sqrt (IZR ((r rgb1 - r rgb2) ^ 2 +
             (g rgb1 - g rgb2) ^ 2 +
             (b rgb1 - b rgb2) ^ 2)).

(** *** The blank-image classifier *)

(** The centre and the two quarter points, each coordinate the [Math.floor]
    of a quotient of the image's own width or height. *)
Definition samplePoints (image : Image) : list Point :=
  [ {| x := width image / 2; y := height image / 2 |};
    {| x := width image / 4; y := height image / 4 |};
    {| x := (3 * width image) / 4; y := (3 * height image) / 4 |} ].

(** The body of the loop over the sample points: [diff] for one point. *)
Definition diff (image : Image) (targetRGB : RGB) (point : Point) : Z :=
  let pixel := getImageData image (x point) (y point) in
  Z.abs (data_0 pixel - r targetRGB) +
  Z.abs (data_1 pixel - g targetRGB) +
  Z.abs (data_2 pixel - b targetRGB).

Definition totalDiff (image : Image) (targetRGB : RGB) : Z :=
  fold_left (fun total point => total + diff image targetRGB point)
            (samplePoints image) 0.

(** [totalDiff / samplePoints.length], as the exact quotient of the two
    integers. *)
Definition avgDiff (image : Image) (blankColor : string) : Q :=
  let targetRGB := hexToRgb blankColor in
  (inject_Z (totalDiff image targetRGB) /
   inject_Z (Z.of_nat (List.length (samplePoints image))))%Q.

(** [isBlankImage(image, blankColor = '#FFFFFF', threshold = 10)] *)
Definition isBlankImage (this : ImageGrouper) (image : Image)
           (blankColor : option string) (threshold : option Q) : bool :=
  let blankColor := JS.default_arg "#FFFFFF" blankColor in
  let threshold := JS.default_arg 10%Q threshold in
  Qle_bool (avgDiff image blankColor) threshold.

(** *** Saving *)

Record SavedImage : Type := mkSaved { image : Image; newName : string }.

Definition saveImage (this : ImageGrouper) (image : Image) (newName : string)
  : SavedImage :=
  {| image := image; newName := newName |}.

(** Placeholders without a body. *)
Definition createFolder (this : ImageGrouper) (folderName : string) : unit := tt.

Definition moveImagesToFolder (this : ImageGrouper)
           (images : list SavedImage) (folderName : string) : unit := tt.

Definition saveGroups (this : ImageGrouper) (groups : list (list Image))
  : list (list SavedImage) :=
  mapi (fun group groupIndex =>
          let groupName :=
            (namingScheme (config this)
             ++ JS.number_to_string (groupIndex + 1))%string in
          let savedGroup :=
            mapi (fun image imageIndex =>
                    saveImage this image
                      (groupName ++ "-image"
                       ++ JS.number_to_string (imageIndex + 1))%string)
                 group in
          let _ :=
            if groupFolder (config this)
            then (createFolder this groupName,
                  moveImagesToFolder this savedGroup groupName)
            else (tt, tt) in
          savedGroup)
       groups.

(** *** The grouping pass *)

(** What [groupImages] returns: the groups, or the saved groups when
    [saveGroups] is requested. *)
Inductive GroupResult : Type :=
| Groups (groups : list (list Image))
| SavedGroups (savedGroups : list (list SavedImage)).

(** The [for ... of] loop over the images, on the two accumulators. *)
Fixpoint groupLoop (this : ImageGrouper) (blankColor : string) (threshold : Q)
         (images : list Image) (groups : list (list Image))
         (currentGroup : list Image) : list (list Image) * list Image :=
  match images with
  | [] => (groups, currentGroup)
  | image :: rest =>
      if isBlankImage this image (Some blankColor) (Some threshold) then
        if (0 <? List.length currentGroup)%nat
        then groupLoop this blankColor threshold rest
                       (groups ++ [currentGroup]) []
        else groupLoop this blankColor threshold rest groups currentGroup
      else groupLoop this blankColor threshold rest groups
                     (currentGroup ++ [image])
  end.

Definition callConfig (this : ImageGrouper) (options : Options) : CallConfig :=
  {| cfg_blankColor :=
      JS.or_else JS.truthy_string (opt_blankColor options)
                 (delimiterColor (config this));
     cfg_threshold :=
      JS.or_else JS.truthy_number (opt_threshold options)
                 (colorThreshold (config this));
     cfg_saveGroups :=
      JS.or_else JS.truthy_bool (opt_saveGroups options) false |}.

Definition groupImages (this : ImageGrouper) (images : list Image)
           (options : Options) : GroupResult :=
  let config := callConfig this options in
  let '(groups, currentGroup) :=
    groupLoop this (cfg_blankColor config) (cfg_threshold config)
              images [] [] in
  let groups :=
    if (0 <? List.length currentGroup)%nat
    then groups ++ [currentGroup] else groups in
  if cfg_saveGroups config then SavedGroups (saveGroups this groups)
  else Groups groups.

End Grouper.

(** ** The shape that [hexToRgb] accepts *)

Definition hex_digits : list ascii :=
  list_ascii_of_string "0123456789abcdefABCDEF".

Definition is_hex_digit (c : ascii) : bool :=
  existsb (Ascii.eqb c) hex_digits.

(** The value of a hexadecimal digit: its rank among ["0".."9","a".."f"],
    whatever the case of a letter. *)
Fixpoint rank (c : ascii) (l : list ascii) : Z :=
  match l with
  | [] => 0
  | d :: l' => if Ascii.eqb c d then 0 else 1 + rank c l'
  end.

Definition digit_value (c : ascii) : Z :=
  if existsb (Ascii.eqb c) (list_ascii_of_string "ABCDEF")
  then 10 + rank c (list_ascii_of_string "ABCDEF")
  else rank c (list_ascii_of_string "0123456789abcdef").

Definition pair_value (d1 d2 : ascii) : Z := 16 * digit_value d1 + digit_value d2.

(** Six hexadecimal digits and nothing else. *)
Definition six_digits (s : string) : option (list ascii) :=
  match s with
  | String d1 (String d2 (String d3 (String d4 (String d5 (String d6 EmptyString))))) =>
      if forallb is_hex_digit [d1; d2; d3; d4; d5; d6]
      then Some [d1; d2; d3; d4; d5; d6] else None
  | _ => None
  end.

(** A string is well shaped when it is six hexadecimal digits, optionally
    after one ["#"]. *)
Definition well_shaped (hex : string) (ds : list ascii) : Prop :=
  List.length ds = 6%nat /\
  Forall (fun d => is_hex_digit d = true) ds /\
  (hex = string_of_list_ascii ds \/ hex = String "#" (string_of_list_ascii ds)).

Definition white : RGB := {| r := 255; g := 255; b := 255 |}.

Definition rgb_of_digits (ds : list ascii) : RGB :=
  match ds with
  | [d1; d2; d3; d4; d5; d6] =>
      {| r := pair_value d1 d2; g := pair_value d3 d4; b := pair_value d5 d6 |}
  | _ => white
  end.

Import RegExp.

(** The digits of a well-shaped string, computed. *)
Definition shape (hex : string) : option (list ascii) :=
  match hex with
  | String c rest => if Ascii.eqb "#" c then six_digits rest else six_digits hex
  | EmptyString => None
  end.

(** The three pairs of six digits, as the captures hold them. *)
Definition pairs_of (ds : list ascii) : list string :=
  match ds with
  | [d1; d2; d3; d4; d5; d6] =>
      [String d1 (String d2 EmptyString);
       String d3 (String d4 EmptyString);
       String d5 (String d6 EmptyString)]
  | _ => []
  end.

(** The three captured pairs and the end anchor of [hexPattern]. *)
Definition threePairs : regex :=
  Seq hexPair (Seq hexPair (Seq hexPair Eol)).

(** The Euclidean distance of two colours in RGB space. *)
Definition euclidean (c1 c2 : RGB) : R :=
  sqrt (Rsqr (IZR (r c1) - IZR (r c2)) +
        Rsqr (IZR (g c1) - IZR (g c2)) +
        Rsqr (IZR (b c1) - IZR (b c2))).

(** ** What the classifier computes *)

(** The sum of the absolute channel differences of a pixel and a colour. *)
Definition sumAbsDiff (pixel : PixelData) (target : RGB) : Z :=
  Z.abs (data_0 pixel - r target) +
  Z.abs (data_1 pixel - g target) +
  Z.abs (data_2 pixel - b target).

(** The mean absolute channel difference of a pixel and a colour:
    (|dr| + |dg| + |db|) / 3. *)
Definition meanAbsDiff (pixel : PixelData) (target : RGB) : Q :=
  (inject_Z (sumAbsDiff pixel target) / 3)%Q.

(** The pixels at the centre and at the two quarter points of an image. *)
Definition centrePixel (image : Image) : PixelData :=
  getImageData image (width image / 2) (height image / 2).

Definition quarterPixel (image : Image) : PixelData :=
  getImageData image (width image / 4) (height image / 4).

Definition threeQuarterPixel (image : Image) : PixelData :=
  getImageData image (3 * width image / 4) (3 * height image / 4).

(** The average over the three sample points of the per-point mean absolute
    channel difference. *)
Definition averageOfMeans (image : Image) (blankColor : string) : Q :=
  let target := hexToRgb blankColor in
  ((meanAbsDiff (centrePixel image) target +
    meanAbsDiff (quarterPixel image) target +
    meanAbsDiff (threeQuarterPixel image) target) / 3)%Q.

(** The average over the three sample points of the per-point sum of the
    absolute channel differences. *)
Definition averageOfSums (image : Image) (blankColor : string) : Q :=
  let target := hexToRgb blankColor in
  (inject_Z (sumAbsDiff (centrePixel image) target +
             sumAbsDiff (quarterPixel image) target +
             sumAbsDiff (threeQuarterPixel image) target) / 3)%Q.

(** [n] is the floor of [a / d]. *)
Definition is_floor_of (n a d : Z) : Prop := d * n <= a < d * n + d.

Definition in_bounds (image : Image) (p : Point) : Prop :=
  0 <= x p <= width image - 1 /\ 0 <= y p <= height image - 1.

(** ** What the grouping pass returns *)

(** The images that a result carries, group by group. *)
Definition images_of (result : GroupResult) : list (list Image) :=
  match result with
  | Groups groups => groups
  | SavedGroups savedGroups => map (map image) savedGroups
  end.

(** The number of images in each group of a result. *)
Definition sizes_of (result : GroupResult) : list nat :=
  match result with
  | Groups groups => map (@List.length Image) groups
  | SavedGroups savedGroups => map (@List.length SavedImage) savedGroups
  end.

(** The groups that the pass over [images] makes for a blank colour and a
    threshold. *)
Definition groupsWith (this : ImageGrouper) (blankColor : string)
           (threshold : Q) (images : list Image) : list (list Image) :=
  let '(groups, currentGroup) :=
    groupLoop this blankColor threshold images [] [] in
  if (0 <? List.length currentGroup)%nat
  then groups ++ [currentGroup] else groups.

(** ** Fixtures: images of one colour *)

Definition solid (w h : Z) (c0 c1 c2 : Z) : Image :=
  mkImage w h (fun _ _ => mkPixel c0 c1 c2 255).

(** A light grey image: every channel of every pixel is 10 below white. *)
Definition lightGrey : Image := solid 4 4 245 245 245.

(** The same picture as [lightGrey] except at the corner pixel (0,0), which
    is not a sample point of a 4 x 4 image. *)
Definition lightGreySpot : Image :=
  mkImage 4 4 (fun x y => if (x =? 0) && (y =? 0)
                          then mkPixel 0 0 0 255
                          else mkPixel 245 245 245 255).

(** The scenarios: [A], [C], [D] and [E] are pictures, [B] is a white page. *)
Definition A : Image := solid 100 80 12 40 200.
Definition B : Image := solid 100 80 255 255 255.
Definition C : Image := solid 64 64 0 0 0.
Definition D : Image := solid 30 20 90 90 90.
Definition E : Image := solid 10 10 200 10 10.

Definition defaultGrouper : ImageGrouper := constructor noConfig.

(** A grouper configured for red delimiters and a red page. *)
Definition redGrouper : ImageGrouper :=
  constructor (mkUserConfig (Some "#FF0000") (Some 20%Q) None None).

Definition redPage : Image := solid 8 8 255 0 0.

(** A page that is white up to one step in one channel. *)
Definition nearWhite : Image := solid 4 4 254 255 255.

(** ** Notions for the further properties *)

(** The upper-case and the lower-case form of a character. *)
Definition upper (c : ascii) : ascii :=
  let n := N_of_ascii c in
  if (N.leb 97 n && N.leb n 122)%bool then ascii_of_N (n - 32) else c.

Definition lower (c : ascii) : ascii :=
  let n := N_of_ascii c in
  if (N.leb 65 n && N.leb n 90)%bool then ascii_of_N (n + 32) else c.

Fixpoint map_string (f : ascii -> ascii) (s : string) : string :=
  match s with
  | EmptyString => EmptyString
  | String c s' => String (f c) (map_string f s')
  end.

(** The hexadecimal digit of a number below 16, and the two digits of a
    channel. *)
Definition hex_char (n : Z) : ascii :=
  nth (Z.to_nat n) (list_ascii_of_string "0123456789abcdef") "0"%char.

Definition channel_digits (v : Z) : string :=
  String (hex_char (v / 16)) (String (hex_char (v mod 16)) EmptyString).

(** The ["#rrggbb"] notation of a colour. *)
Definition hex_of_rgb (c : RGB) : string :=
  String "#" (channel_digits (r c) ++ channel_digits (g c)
              ++ channel_digits (b c))%string.

(** A colour whose channels are in 0..255. *)
Definition channels_in_range (c : RGB) : Prop :=
  0 <= r c <= 255 /\ 0 <= g c <= 255 /\ 0 <= b c <= 255.

(** A pixel whose three colour channels are in 0..255, as canvas reads
    are, and a pixel that has exactly the channels of a colour. *)
Definition pixel_in_range (pixel : PixelData) : Prop :=
  0 <= data_0 pixel <= 255 /\ 0 <= data_1 pixel <= 255 /\
  0 <= data_2 pixel <= 255.

Definition pixel_is (pixel : PixelData) (target : RGB) : Prop :=
  data_0 pixel = r target /\ data_1 pixel = g target /\
  data_2 pixel = b target.

(** Whether [groupImages], called on a grouper with some options, takes an
    image for a delimiter. *)
Definition delimiter (this : ImageGrouper) (options : Options)
           (image : Image) : bool :=
  isBlankImage this image
               (Some (cfg_blankColor (callConfig this options)))
               (Some (cfg_threshold (callConfig this options))).

(** The pieces between the delimiters of a list: one more piece than there
    are delimiters, some of which may be empty. *)
Fixpoint splitOn (blank : Image -> bool) (images : list Image)
  : list (list Image) :=
  match images with
  | [] => [[]]
  | image :: rest =>
      if blank image then [] :: splitOn blank rest
      else match splitOn blank rest with
           | piece :: pieces => (image :: piece) :: pieces
           | [] => [[image]]
           end
  end.

Definition nonEmpty (group : list Image) : bool :=
  match group with
  | [] => false
  | _ :: _ => true
  end.

(** A list that is empty or ends with a delimiter, and one that is empty or
    starts with one. *)
Definition ends_with_delimiter (blank : Image -> bool) (l : list Image) : Prop :=
  l = [] \/ exists l' d, l = l' ++ [d] /\ blank d = true.

Definition starts_with_delimiter (blank : Image -> bool) (l : list Image)
  : Prop :=
  l = [] \/ exists d l', l = d :: l' /\ blank d = true.

(** The first piece of a list of pieces, extended to the left. *)
Definition attach (currentGroup : list Image) (pieces : list (list Image))
  : list (list Image) :=
  match pieces with
  | first :: others => (currentGroup ++ first) :: others
  | [] => [currentGroup]
  end.

(** The name under which [saveGroups] saves the image at index
    [imageIndex] of the group at index [groupIndex]. *)
Definition savedName (this : ImageGrouper) (groupIndex imageIndex : nat)
  : string :=
  ((namingScheme (config this) ++ JS.number_to_string (groupIndex + 1))
   ++ "-image" ++ JS.number_to_string (imageIndex + 1))%string.

(** The saved entries of the group at index [groupIndex]. *)
Definition savedGroupAt (this : ImageGrouper) (group : list Image)
           (groupIndex : nat) : list SavedImage :=
  mapi (fun image imageIndex =>
          saveImage this image (savedName this groupIndex imageIndex))
       group.

(** ** Properties of the colour helpers *)

Section HexToRgb.

Ltac by_cases_on_ascii c :=
  destruct c as [[] [] [] [] [] [] [] []]; vm_compute; reflexivity.

Lemma class_matches_hex (c : ascii) :
  class_matches true [Range "a" "f"; Digit] c = is_hex_digit c.
Proof. by_cases_on_ascii c. Qed.

Lemma hash_matches (c : ascii) :
  Ascii.eqb (canonicalize true "#") (canonicalize true c) = Ascii.eqb "#" c.
Proof. by_cases_on_ascii c. Qed.

Lemma hash_not_hex : is_hex_digit "#" = false.
Proof. reflexivity. Qed.

Lemma hex_digit_value_spec (c : ascii) :
  hex_digit_value c =
  if is_hex_digit c then Some (digit_value c) else None.
Proof. by_cases_on_ascii c. Qed.

Lemma digit_value_range (c : ascii) :
  is_hex_digit c = true -> 0 <= digit_value c <= 15.
Proof.
  destruct c as [[] [] [] [] [] [] [] []]; vm_compute;
    try discriminate; intros _; split; discriminate.
Qed.

Lemma parseInt16_pair (d1 d2 : ascii) :
  is_hex_digit d1 = true -> is_hex_digit d2 = true ->
  parseInt16 (String d1 (String d2 EmptyString)) = pair_value d1 d2.
Proof.
  intros H1 H2. unfold parseInt16, pair_value. cbn [parseInt16_from].
  rewrite !hex_digit_value_spec, H1, H2. lia.
Qed.

(** No attempt after the start of the input can pass the anchor. *)
Lemma exec_from_anchored (i : bool) (re : regex) (s : string) (n : nat) :
  exec_from i (Seq Bol re) (S n) s = None.
Proof.
  revert n. induction s as [|c s IH]; intros n; cbn; auto.
Qed.

Lemma threePairs_match (pos : nat) (s : string) k :
  rmatch true threePairs pos s [] k =
  match six_digits s with
  | Some ds => k (6 + pos)%nat EmptyString (pairs_of ds)
  | None => None
  end.
Proof.
  unfold threePairs, hexPair, six_digits.
  cbn -[class_matches is_hex_digit substring Nat.sub].
  replace (S (S pos) - pos)%nat with 2%nat by lia.
  replace (S (S (S (S pos))) - S (S pos))%nat with 2%nat by lia.
  replace (S (S (S (S (S (S pos))))) - S (S (S (S pos))))%nat
    with 2%nat by lia.
  repeat (destruct s as [|? s]; [ reflexivity || idtac | ];
          try (rewrite class_matches_hex;
               match goal with
               | |- context [is_hex_digit ?c] =>
                   destruct (is_hex_digit c) eqn:?; cbn [andb]
               end);
          try reflexivity).
Qed.

Lemma six_digits_hex (s : string) (ds : list ascii) :
  six_digits s = Some ds ->
  s = string_of_list_ascii ds /\ List.length ds = 6%nat /\
  forallb is_hex_digit ds = true.
Proof.
  unfold six_digits.
  do 6 (destruct s as [|? s]; [discriminate|]).
  destruct s; [|discriminate].
  destruct (forallb _ _) eqn:Hall; [|discriminate].
  intros [= <-]. auto.
Qed.

Lemma six_digits_complete (ds : list ascii) :
  List.length ds = 6%nat -> forallb is_hex_digit ds = true ->
  six_digits (string_of_list_ascii ds) = Some ds.
Proof.
  intros Hlen Hall.
  do 6 (destruct ds as [|? ds]; [discriminate|]).
  destruct ds; [|discriminate].
  unfold six_digits; cbn [string_of_list_ascii]. now rewrite Hall.
Qed.

Lemma match_at_hexPattern (hex : string) :
  match_at true (pattern hexPattern) 0 hex =
  match shape hex with
  | Some ds => Some (hex :: pairs_of ds)
  | None => None
  end.
Proof.
  unfold match_at, hexPattern, pattern.
  change (Seq hexPair (Seq hexPair (Seq hexPair Eol))) with threePairs.
  cbn -[threePairs canonicalize substring shape six_digits].
  destruct hex as [|c rest];
    cbn -[threePairs canonicalize substring shape six_digits].
  - rewrite threePairs_match. reflexivity.
  - rewrite hash_matches, !threePairs_match.
    change (shape (String c rest))
      with (if Ascii.eqb "#" c then six_digits rest
            else six_digits (String c rest)).
    destruct (Ascii.eqb "#" c) eqn:Hc.
    + apply Ascii.eqb_eq in Hc; subst c.
      destruct (six_digits rest) as [ds|] eqn:Hrest.
      * apply six_digits_hex in Hrest as (-> & Hlen & _).
        do 6 (destruct ds as [|? ds]; [discriminate|]).
        destruct ds; [|discriminate]. reflexivity.
      * unfold six_digits.
        do 6 (destruct rest as [|? rest]; [reflexivity|]);
          destruct rest; reflexivity.
    + destruct (six_digits (String c rest)) as [ds|] eqn:Hs; [|reflexivity].
      apply six_digits_hex in Hs as (Heq & Hlen & _).
      do 6 (destruct ds as [|? ds]; [discriminate|]).
      destruct ds; [|discriminate].
      cbn in Heq. injection Heq as -> ->. reflexivity.
Qed.

Lemma exec_hexPattern (hex : string) :
  exec hexPattern hex =
  match shape hex with
  | Some ds => Some (hex :: pairs_of ds)
  | None => None
  end.
Proof.
  unfold exec. destruct hex as [|c rest].
  - reflexivity.
  - cbn [exec_from]. rewrite match_at_hexPattern.
    destruct (shape (String c rest)); [reflexivity|].
    apply exec_from_anchored.
Qed.

Lemma shape_well_shaped (hex : string) (ds : list ascii) :
  shape hex = Some ds <-> well_shaped hex ds.
Proof.
  unfold well_shaped. split.
  - destruct hex as [|c rest]; [discriminate|].
    cbn [shape]. destruct (Ascii.eqb "#" c) eqn:Hc; intros H;
      apply six_digits_hex in H as (Heq & Hlen & Hall);
      rewrite forallb_forall in Hall; rewrite Forall_forall.
    + apply Ascii.eqb_eq in Hc; subst. auto.
    + auto.
  - intros (Hlen & Hall & Heq).
    assert (Hall' : forallb is_hex_digit ds = true).
    { rewrite forallb_forall. now rewrite Forall_forall in Hall. }
    pose proof (six_digits_complete ds Hlen Hall') as Hsix.
    destruct Heq as [-> | ->].
    + destruct ds as [|d ds]; [discriminate|].
      cbn [string_of_list_ascii shape] in *.
      destruct (Ascii.eqb "#" d) eqn:Hd; [|assumption].
      apply Ascii.eqb_eq in Hd; subst d.
      cbn [forallb] in Hall'. now rewrite hash_not_hex in Hall'.
    + cbn [shape]. now rewrite Ascii.eqb_refl.
Qed.

Lemma hexToRgb_shape (hex : string) :
  hexToRgb hex =
  match shape hex with
  | Some ds => rgb_of_digits ds
  | None => white
  end.
Proof.
  unfold hexToRgb. rewrite exec_hexPattern.
  destruct (shape hex) as [ds|] eqn:Hs; [|reflexivity].
  apply shape_well_shaped in Hs as (Hlen & Hall & _).
  do 6 (destruct ds as [|? ds]; [discriminate|]).
  destruct ds; [|discriminate].
  repeat match goal with
         | H : Forall _ (_ :: _) |- _ => inversion H; subst; clear H
         end.
  unfold capture, pairs_of, rgb_of_digits; cbn [nth].
  now rewrite !parseInt16_pair.
Qed.

(** Whenever the pattern matches, the three captures are pairs of
    hexadecimal digits, so that [parseInt] reads a number from each. *)
Lemma hexToRgb_captures_parse (hex : string) (result : list string) :
  exec hexPattern hex = Some result ->
  forall i, (1 <= i <= 3)%nat ->
  exists d1 d2,
    capture result i = String d1 (String d2 EmptyString) /\
    hex_digit_value d1 <> None /\ hex_digit_value d2 <> None.
Proof.
  rewrite exec_hexPattern.
  destruct (shape hex) as [ds|] eqn:Hs; [|discriminate].
  intros [= <-] i Hi.
  apply shape_well_shaped in Hs as (Hlen & Hall & _).
  do 6 (destruct ds as [|? ds]; [discriminate|]).
  destruct ds; [|discriminate].
  repeat match goal with
         | H : Forall _ (_ :: _) |- _ => inversion H; subst; clear H
         end.
  assert (Hi' : i = 1%nat \/ i = 2%nat \/ i = 3%nat) by lia.
  destruct Hi' as [-> | [-> | ->]]; cbn; do 2 eexists;
    (split; [reflexivity|]);
    rewrite !hex_digit_value_spec;
    repeat match goal with
           | H : is_hex_digit _ = true |- _ => rewrite H; clear H
           end;
    split; discriminate.
Qed.

Lemma rgb_of_digits_range (ds : list ascii) :
  Forall (fun d => is_hex_digit d = true) ds ->
  let c := rgb_of_digits ds in
  0 <= r c <= 255 /\ 0 <= g c <= 255 /\ 0 <= b c <= 255.
Proof.
  intros Hall.
  do 6 (destruct ds as [|? ds]; [cbn; lia|]).
  destruct ds; [|cbn; lia].
  repeat match goal with
         | H : Forall _ (_ :: _) |- _ => inversion H; subst; clear H
         end.
  repeat match goal with
         | H : is_hex_digit _ = true |- _ => apply digit_value_range in H
         end.
  cbn; unfold pair_value; lia.
Qed.

(** Every colour that [hexToRgb] returns has its channels in 0..255. *)
Lemma hexToRgb_range (hex : string) :
  0 <= r (hexToRgb hex) <= 255 /\
  0 <= g (hexToRgb hex) <= 255 /\
  0 <= b (hexToRgb hex) <= 255.
Proof.
  rewrite hexToRgb_shape.
  destruct (shape hex) as [ds|] eqn:Hs; [|cbn; lia].
  apply shape_well_shaped in Hs as (_ & Hall & _).
  now apply rgb_of_digits_range.
Qed.

End HexToRgb.

(** C7.  [hexToRgb] reads a string made of six hexadecimal digits in either
    case, optionally after one ["#"], as the colour whose channels are the
    values of the three digit pairs; on every other string it returns the
    fallback colour (255,255,255).  In particular ["#FFFFFF"] and
    ["not-a-color"] both give (255,255,255). *)
Theorem hexToRgb_six_digits_or_fallback :
  (forall hex ds, well_shaped hex ds -> hexToRgb hex = rgb_of_digits ds) /\
  (forall hex, (forall ds, ~ well_shaped hex ds) -> hexToRgb hex = white) /\
  hexToRgb "#FFFFFF" = {| r := 255; g := 255; b := 255 |} /\
  hexToRgb "not-a-color" = {| r := 255; g := 255; b := 255 |}.
Proof.
  split; [|split; [|split; reflexivity]].
  - intros hex ds Hw. rewrite hexToRgb_shape.
    apply shape_well_shaped in Hw. now rewrite Hw.
  - intros hex Hno. rewrite hexToRgb_shape.
    destruct (shape hex) as [ds|] eqn:Hs; [|reflexivity].
    apply shape_well_shaped in Hs. now elim (Hno ds).
Qed.

Lemma hexToRgb_six_digits_or_fallback_witness :
  hexToRgb "#a1B2c3" = {| r := 161; g := 178; b := 195 |} /\
  hexToRgb "a1B2c" = {| r := 255; g := 255; b := 255 |}.
Proof.
  destruct hexToRgb_six_digits_or_fallback as (Hok & Hbad & _).
  split.
  - apply (Hok "#a1B2c3" (list_ascii_of_string "a1B2c3")).
    unfold well_shaped. split; [reflexivity|]. split.
    + repeat constructor.
    + right; reflexivity.
  - apply (Hbad "a1B2c").
    intros ds (Hlen & _ & Heq).
    do 6 (destruct ds as [|? ds]; [discriminate Hlen|]).
    destruct Heq as [Heq | Heq]; discriminate Heq.
Defined.

Lemma euclidean_self (c : RGB) : euclidean c c = 0%R.
Proof.
  unfold euclidean. rewrite !Rminus_diag, Rsqr_0, !Rplus_0_r. apply sqrt_0.
Qed.

(** C8.  [colorDifference] is the Euclidean distance in RGB space of the two
    colours its arguments denote: the square root of the sum over the three
    channels of the squared channel differences.  White is at distance 0 from
    itself, and black is at distance sqrt(3 * 255^2) from white. *)
Theorem colorDifference_euclidean :
  (forall hex1 hex2,
      colorDifference hex1 hex2 = euclidean (hexToRgb hex1) (hexToRgb hex2)) /\
  colorDifference "#FFFFFF" "#FFFFFF" = 0%R /\
  colorDifference "#000000" "#FFFFFF" = sqrt (3 * 255 ^ 2)%R.
Proof.
  assert (Heuc : forall hex1 hex2,
             colorDifference hex1 hex2 =
             euclidean (hexToRgb hex1) (hexToRgb hex2)).
  { intros hex1 hex2. unfold colorDifference, euclidean, Rsqr. f_equal.
    rewrite !plus_IZR, !Z.pow_2_r, !mult_IZR, !minus_IZR. reflexivity. }
  split; [exact Heuc|]. split.
  - rewrite Heuc. apply euclidean_self.
  - rewrite Heuc. unfold euclidean.
    replace (hexToRgb "#000000") with {| r := 0; g := 0; b := 0 |}
      by reflexivity.
    replace (hexToRgb "#FFFFFF") with {| r := 255; g := 255; b := 255 |}
      by reflexivity.
    cbn [r g b]. f_equal. unfold Rsqr. lra.
Qed.

(** ** Properties of the classifier *)

Section Classifier.

Variable this : ImageGrouper.

Lemma avgDiff_averageOfSums (image : Image) (blankColor : string) :
  avgDiff image blankColor = averageOfSums image blankColor.
Proof.
  unfold avgDiff, averageOfSums, totalDiff, samplePoints, diff,
    centrePixel, quarterPixel, threeQuarterPixel, sumAbsDiff.
  cbn [fold_left List.length x y Z.of_nat Pos.of_succ_nat Pos.succ].
  rewrite Z.add_0_l. reflexivity.
Qed.

Lemma isBlankImage_avgDiff (image : Image) (blankColor : string)
      (threshold : Q) :
  isBlankImage this image (Some blankColor) (Some threshold) = true <->
  (avgDiff image blankColor <= threshold)%Q.
Proof. unfold isBlankImage, JS.default_arg. apply Qle_bool_iff. Qed.

Lemma averageOfMeans_third (image : Image) (blankColor : string) :
  (averageOfMeans image blankColor == averageOfSums image blankColor / 3)%Q.
Proof.
  unfold averageOfMeans, averageOfSums, meanAbsDiff.
  rewrite !inject_Z_plus. field.
Qed.

Lemma floor_div (a d : Z) : 0 < d -> is_floor_of (a / d) a d.
Proof.
  intros Hd. unfold is_floor_of.
  pose proof (Z.mul_div_le a d Hd).
  pose proof (Z.mul_succ_div_gt a d Hd). lia.
Qed.

Lemma samplePoints_size (image image' : Image) :
  width image' = width image -> height image' = height image ->
  samplePoints image' = samplePoints image.
Proof. intros Hw Hh. unfold samplePoints. now rewrite Hw, Hh. Qed.

Lemma fold_left_agree {T : Type} (f f' : Z -> T -> Z) (l : list T) :
  Forall (fun p => forall total, f' total p = f total p) l ->
  forall total, fold_left f' l total = fold_left f l total.
Proof.
  induction 1 as [|p l Hp _ IH]; intros total; cbn [fold_left].
  - reflexivity.
  - now rewrite Hp, IH.
Qed.

(** The total difference reads the image at its sample points only. *)
Lemma totalDiff_agree (image image' : Image) (targetRGB : RGB) :
  width image' = width image -> height image' = height image ->
  Forall (fun p => getImageData image' (x p) (y p) =
                   getImageData image (x p) (y p))
         (samplePoints image) ->
  totalDiff image' targetRGB = totalDiff image targetRGB.
Proof.
  intros Hw Hh Hpix. unfold totalDiff.
  rewrite (samplePoints_size image image' Hw Hh).
  apply fold_left_agree.
  eapply Forall_impl; [|exact Hpix].
  intros p Hp total. unfold diff. now rewrite Hp.
Qed.

End Classifier.

(** C2, as stated, fails: against white the light grey image has a mean
    absolute channel difference of 10 at each sample point, which is within
    the threshold 10, and [isBlankImage] does not classify it as blank. *)
Lemma isBlankImage_not_average_of_means :
  isBlankImage (constructor noConfig) lightGrey (Some "#FFFFFF") (Some 10%Q)
  = false /\
  (averageOfMeans lightGrey "#FFFFFF" <= 10)%Q.
Proof. split; [reflexivity | discriminate]. Qed.

(** C2, amended.  For an integer threshold, [isBlankImage] returns true if
    and only if the average over the 3 sample points of the per-point sum of
    absolute channel differences against the blank colour, |dr| + |dg| + |db|
    (not divided by 3), is at most the threshold. *)
Theorem isBlankImage_average_of_sums :
  forall (this : ImageGrouper) (image : Image) (blankColor : string)
         (threshold : Z),
    isBlankImage this image (Some blankColor) (Some (inject_Z threshold))
    = true <->
    (averageOfSums image blankColor <= inject_Z threshold)%Q.
Proof.
  intros this image blankColor threshold.
  rewrite isBlankImage_avgDiff, avgDiff_averageOfSums. reflexivity.
Qed.



(** C10.  For an image of width at least 1 and height at least 1 the three
    sample coordinates lie within 0..width-1 and 0..height-1, by the floor
    division alone: the coordinates are not clamped, so that for a negative
    width or height they are negative. *)
Theorem samplePoints_in_bounds :
  forall (image : Image),
    (1 <= width image -> 1 <= height image ->
     Forall (in_bounds image) (samplePoints image)) /\
    (width image < 0 -> Forall (fun p => x p < 0) (samplePoints image)) /\
    (height image < 0 -> Forall (fun p => y p < 0) (samplePoints image)).
Proof.
  intros image.
  pose proof (floor_div (width image) 2 ltac:(lia)) as Hw2.
  pose proof (floor_div (width image) 4 ltac:(lia)) as Hw4.
  pose proof (floor_div (3 * width image) 4 ltac:(lia)) as Hw34.
  pose proof (floor_div (height image) 2 ltac:(lia)) as Hh2.
  pose proof (floor_div (height image) 4 ltac:(lia)) as Hh4.
  pose proof (floor_div (3 * height image) 4 ltac:(lia)) as Hh34.
  unfold is_floor_of in *. unfold samplePoints, in_bounds.
  repeat split; intros; repeat constructor; cbn [x y]; lia.
Qed.

Lemma samplePoints_in_bounds_witness :
  Forall (in_bounds (solid 1 1 255 255 255))
         (samplePoints (solid 1 1 255 255 255)) /\
  Forall (fun p => x p < 0) (samplePoints (solid (-4) 3 255 255 255)) /\
  Forall (fun p => y p < 0) (samplePoints (solid 4 (-3) 255 255 255)).
Proof.
  split; [|split].
  - apply (samplePoints_in_bounds (solid 1 1 255 255 255)); cbn; lia.
  - apply (samplePoints_in_bounds (solid (-4) 3 255 255 255)); cbn; lia.
  - apply (samplePoints_in_bounds (solid 4 (-3) 255 255 255)); cbn; lia.
Defined.

(** ** Properties of the grouping pass *)

Section Grouping.

Variable this : ImageGrouper.
Variable blankColor : string.
Variable threshold : Q.

Let blank (image : Image) : bool :=
  isBlankImage this image (Some blankColor) (Some threshold).

Let nonBlank (image : Image) : bool := negb (blank image).

Lemma flush_concat (groups : list (list Image)) (currentGroup : list Image) :
  List.concat (if (0 <? List.length currentGroup)%nat
          then groups ++ [currentGroup] else groups)
  = List.concat groups ++ currentGroup.
Proof.
  destruct currentGroup as [|image rest]; cbn [List.length Nat.ltb Nat.leb].
  - now rewrite app_nil_r.
  - rewrite concat_app. cbn [List.concat]. now rewrite app_nil_r.
Qed.

Lemma flush_nonempty (groups : list (list Image))
      (currentGroup : list Image) :
  Forall (fun group => group <> []) groups ->
  Forall (fun group => group <> [])
         (if (0 <? List.length currentGroup)%nat
          then groups ++ [currentGroup] else groups).
Proof.
  intros Hgroups.
  destruct currentGroup as [|image rest]; cbn [List.length Nat.ltb Nat.leb].
  - assumption.
  - apply Forall_app. split; [assumption|].
    constructor; [discriminate | constructor].
Qed.

(** The loop keeps the non-blank images, in order. *)
Lemma groupLoop_concat (images : list Image) :
  forall groups currentGroup,
    List.concat (fst (groupLoop this blankColor threshold images
                           groups currentGroup))
    ++ snd (groupLoop this blankColor threshold images groups currentGroup)
    = List.concat groups ++ currentGroup ++ filter nonBlank images.
Proof.
  induction images as [|image rest IH]; intros groups currentGroup;
    cbn [groupLoop filter fst snd].
  - now rewrite app_nil_r.
  - unfold nonBlank at 1, blank at 1.
    destruct (isBlankImage this image (Some blankColor) (Some threshold));
      cbn [negb].
    + destruct (0 <? List.length currentGroup)%nat eqn:Hlen.
      * rewrite IH, concat_app. cbn [List.concat app].
        now rewrite app_nil_r, <- app_assoc.
      * rewrite IH. reflexivity.
    + rewrite IH, <- app_assoc. reflexivity.
Qed.

(** The loop never completes an empty group. *)
Lemma groupLoop_nonempty (images : list Image) :
  forall groups currentGroup,
    Forall (fun group => group <> []) groups ->
    Forall (fun group => group <> [])
           (fst (groupLoop this blankColor threshold images
                           groups currentGroup)).
Proof.
  induction images as [|image rest IH]; intros groups currentGroup Hgroups;
    cbn [groupLoop fst].
  - assumption.
  - destruct (isBlankImage this image (Some blankColor) (Some threshold)).
    + destruct currentGroup as [|first others];
        cbn [List.length Nat.ltb Nat.leb].
      * now apply IH.
      * apply IH. apply Forall_app. split; [assumption|].
        constructor; [discriminate | constructor].
    + now apply IH.
Qed.

Lemma groupsWith_concat (images : list Image) :
  List.concat (groupsWith this blankColor threshold images)
  = filter nonBlank images.
Proof.
  unfold groupsWith.
  pose proof (groupLoop_concat images [] []) as Hloop.
  destruct (groupLoop this blankColor threshold images [] [])
    as [groups currentGroup].
  rewrite flush_concat. exact Hloop.
Qed.

Lemma groupsWith_nonempty (images : list Image) :
  Forall (fun group => group <> [])
         (groupsWith this blankColor threshold images).
Proof.
  unfold groupsWith.
  pose proof (groupLoop_nonempty images [] [] (Forall_nil _)) as Hloop.
  destruct (groupLoop this blankColor threshold images [] [])
    as [groups currentGroup].
  now apply flush_nonempty.
Qed.

(** Without a blank image the loop only appends to the current group. *)
Lemma groupLoop_no_blank (images : list Image) :
  forallb nonBlank images = true ->
  forall groups currentGroup,
    groupLoop this blankColor threshold images groups currentGroup
    = (groups, currentGroup ++ images).
Proof.
  induction images as [|image rest IH]; intros Hall groups currentGroup;
    cbn [groupLoop].
  - now rewrite app_nil_r.
  - cbn [forallb] in Hall. apply andb_prop in Hall as [Himage Hrest].
    unfold nonBlank, blank in Himage. apply negb_true_iff in Himage.
    rewrite Himage, (IH Hrest), <- app_assoc. reflexivity.
Qed.

(** With blank images only the loop leaves both accumulators alone. *)
Lemma groupLoop_all_blank (images : list Image) :
  forallb blank images = true ->
  groupLoop this blankColor threshold images [] [] = ([], []).
Proof.
  induction images as [|image rest IH]; intros Hall; cbn [groupLoop].
  - reflexivity.
  - cbn [forallb] in Hall. apply andb_prop in Hall as [Himage Hrest].
    unfold blank in Himage. rewrite Himage. cbn. now apply IH.
Qed.

End Grouping.

Section Saving.

Variable this : ImageGrouper.

Lemma mapi_from_length {T U : Type} (f : T -> nat -> U) (l : list T) :
  forall i, List.length (mapi_from i f l) = List.length l.
Proof.
  induction l as [|a l IH]; intros i; cbn; [reflexivity | now rewrite IH].
Qed.

Lemma saved_images (name : nat -> string) (group : list Image) :
  forall i,
    map image (mapi_from i (fun image imageIndex =>
                              saveImage this image (name imageIndex)) group)
    = group.
Proof.
  induction group as [|first others IH]; intros i; cbn;
    [reflexivity | now rewrite IH].
Qed.

Lemma saveGroups_from_images (groups : list (list Image)) :
  forall i,
    map (map image)
        (mapi_from i
           (fun group groupIndex =>
              let groupName :=
                (namingScheme (config this)
                 ++ JS.number_to_string (groupIndex + 1))%string in
              let savedGroup :=
                mapi (fun image imageIndex =>
                        saveImage this image
                          (groupName ++ "-image"
                           ++ JS.number_to_string (imageIndex + 1))%string)
                     group in
              let _ :=
                if groupFolder (config this)
                then (createFolder this groupName,
                      moveImagesToFolder this savedGroup groupName)
                else (tt, tt) in
              savedGroup)
           groups)
    = groups.
Proof.
  induction groups as [|group rest IH]; intros i; cbn [mapi_from map].
  - reflexivity.
  - rewrite IH. f_equal. unfold mapi.
    apply (saved_images
             (fun imageIndex =>
                ((namingScheme (config this)
                  ++ JS.number_to_string (i + 1))
                 ++ "-image" ++ JS.number_to_string (imageIndex + 1))%string)).
Qed.

(** Saving wraps every image of every group, in place. *)
Lemma saveGroups_images (groups : list (list Image)) :
  map (map image) (saveGroups this groups) = groups.
Proof. unfold saveGroups, mapi. apply saveGroups_from_images. Qed.

Lemma groupImages_groupsWith (images : list Image) (options : Options) :
  images_of (groupImages this images options)
  = groupsWith this (cfg_blankColor (callConfig this options))
               (cfg_threshold (callConfig this options)) images.
Proof.
  unfold groupImages, groupsWith.
  destruct (groupLoop _ _ _ images [] []) as [groups currentGroup].
  destruct (cfg_saveGroups (callConfig this options)); cbn [images_of].
  - apply saveGroups_images.
  - reflexivity.
Qed.

Lemma sizes_of_images (result : GroupResult) :
  sizes_of result = map (@List.length Image) (images_of result).
Proof.
  destruct result as [groups | savedGroups]; cbn [sizes_of images_of].
  - reflexivity.
  - rewrite map_map. apply map_ext. intros savedGroup.
    now rewrite length_map.
Qed.

End Saving.

Example scenario_three_groups :
  groupImages defaultGrouper [A; B; C; D; B; E] noOptions
  = Groups [[A]; [C; D]; [E]].
Proof. reflexivity. Qed.

Example scenario_only_blanks :
  groupImages defaultGrouper [B; B] noOptions = Groups [].
Proof. reflexivity. Qed.

Example scenario_single_image :
  groupImages defaultGrouper [A] noOptions = Groups [[A]].
Proof. reflexivity. Qed.

Example scenario_saved_names :
  match groupImages defaultGrouper [A; B; C; D; B; E]
                    (mkOptions None None (Some true)) with
  | SavedGroups savedGroups => map (map newName) savedGroups
  | Groups _ => []
  end
  = [["group1-image1"]; ["group2-image1"; "group2-image2"]; ["group3-image1"]].
Proof. reflexivity. Qed.

(** C1.  The groups that [groupImages] returns, concatenated in order, are
    the input images that [isBlankImage] classifies as non-blank, in the order
    of the input. *)
Theorem groupImages_concat_nonblank :
  forall (this : ImageGrouper) (images : list Image) (options : Options),
    List.concat (images_of (groupImages this images options))
    = filter (fun image =>
                negb (isBlankImage this image
                        (Some (cfg_blankColor (callConfig this options)))
                        (Some (cfg_threshold (callConfig this options)))))
             images.
Proof.
  intros this images options.
  rewrite groupImages_groupsWith. apply groupsWith_concat.
Qed.

(** C4.  No group that [groupImages] returns is empty, whether the groups are
    returned as they are or saved; leading, trailing and consecutive
    delimiters make no empty group. *)
Theorem groupImages_no_empty_group :
  (forall (this : ImageGrouper) (images : list Image) (options : Options),
      Forall (fun group => group <> [])
             (images_of (groupImages this images options)) /\
      Forall (fun size => (0 < size)%nat)
             (sizes_of (groupImages this images options))) /\
  groupImages defaultGrouper [B; B; A; B; B; B; C; D; B; B] noOptions
  = Groups [[A]; [C; D]].
Proof.
  split; [|reflexivity].
  intros this images options.
  assert (Hgroups : Forall (fun group => group <> [])
                           (images_of (groupImages this images options))).
  { rewrite groupImages_groupsWith. apply groupsWith_nonempty. }
  split; [exact Hgroups|].
  rewrite sizes_of_images. apply Forall_map.
  eapply Forall_impl; [|exact Hgroups].
  intros [|first others] Hgroup; cbn; [congruence | lia].
Qed.

(** C6.  On the empty list [groupImages] returns no group; on a list with at
    least one image and without an image classified blank it returns one
    group, which holds every image of the list in order; on a list of images
    all classified blank it returns no group. *)
Theorem groupImages_edge_cases :
  forall (this : ImageGrouper) (options : Options),
    let blankColor := cfg_blankColor (callConfig this options) in
    let threshold := cfg_threshold (callConfig this options) in
    let noGroups :=
      if cfg_saveGroups (callConfig this options)
      then SavedGroups [] else Groups [] in
    groupImages this [] options = noGroups /\
    (forall images,
        images <> [] ->
        Forall (fun image =>
                  isBlankImage this image (Some blankColor) (Some threshold)
                  = false) images ->
        images_of (groupImages this images options) = [images]) /\
    (forall images,
        Forall (fun image =>
                  isBlankImage this image (Some blankColor) (Some threshold)
                  = true) images ->
        groupImages this images options = noGroups).
Proof.
  intros this options blankColor threshold noGroups.
  split; [reflexivity|]. split.
  - intros images Hne Hall.
    rewrite groupImages_groupsWith. unfold groupsWith.
    rewrite groupLoop_no_blank.
    + destruct images as [|first others]; [congruence | reflexivity].
    + apply forallb_forall. rewrite Forall_forall in Hall.
      intros image Hin. fold blankColor threshold.
      now rewrite (Hall image Hin).
  - intros images Hall. unfold groupImages.
    fold blankColor threshold. rewrite groupLoop_all_blank; [reflexivity|].
    apply forallb_forall. now rewrite Forall_forall in Hall.
Qed.

Lemma groupImages_edge_cases_witness :
  images_of (groupImages defaultGrouper [A; C; D] noOptions) = [[A; C; D]] /\
  groupImages defaultGrouper [B; B; B] noOptions = Groups [].
Proof.
  destruct (groupImages_edge_cases defaultGrouper noOptions)
    as (_ & Hone & Hnone).
  split.
  - apply (Hone [A; C; D]); [discriminate | repeat constructor].
  - apply (Hnone [B; B; B]). repeat constructor.
Defined.

(** C3, as stated, fails.  Called directly without overrides on a grouper
    configured for red delimiters, [isBlankImage] compares with white and 10,
    not with the configured colour and threshold, under which the red page is
    blank.  And [groupImages] with the threshold 0 classifies with the
    configured threshold 10: it drops the near-white page, which is not blank
    under the threshold 0. *)
Lemma overrides_not_always_honoured :
  (isBlankImage redGrouper redPage None None = false /\
   isBlankImage redGrouper redPage
                (Some (delimiterColor (config redGrouper)))
                (Some (colorThreshold (config redGrouper))) = true) /\
  (groupImages defaultGrouper [nearWhite] (mkOptions None (Some 0%Q) None)
   = Groups [] /\
   isBlankImage defaultGrouper nearWhite
                (Some (delimiterColor (config defaultGrouper))) (Some 0%Q)
   = false).
Proof. repeat split. Qed.

(** ** Further properties of the colour helpers *)

Section HexToRgbFurther.

Ltac by_cases_on_ascii c :=
  destruct c as [[] [] [] [] [] [] [] []]; vm_compute; reflexivity.

Lemma upper_hex (c : ascii) : is_hex_digit (upper c) = is_hex_digit c.
Proof. by_cases_on_ascii c. Qed.

Lemma lower_hex (c : ascii) : is_hex_digit (lower c) = is_hex_digit c.
Proof. by_cases_on_ascii c. Qed.

Lemma upper_hash (c : ascii) : Ascii.eqb "#" (upper c) = Ascii.eqb "#" c.
Proof. by_cases_on_ascii c. Qed.

Lemma lower_hash (c : ascii) : Ascii.eqb "#" (lower c) = Ascii.eqb "#" c.
Proof. by_cases_on_ascii c. Qed.

Lemma upper_value (c : ascii) : digit_value (upper c) = digit_value c.
Proof. by_cases_on_ascii c. Qed.

Lemma lower_value (c : ascii) : digit_value (lower c) = digit_value c.
Proof. by_cases_on_ascii c. Qed.

Lemma six_digits_map (f : ascii -> ascii) (s : string) :
  (forall c, is_hex_digit (f c) = is_hex_digit c) ->
  six_digits (map_string f s) = option_map (map f) (six_digits s).
Proof.
  intros Hf. unfold six_digits.
  do 6 (destruct s as [|? s]; [reflexivity|]).
  destruct s; [|reflexivity].
  cbn [map_string forallb]. rewrite !Hf.
  destruct (_ && _)%bool; reflexivity.
Qed.

Lemma shape_map (f : ascii -> ascii) (s : string) :
  (forall c, is_hex_digit (f c) = is_hex_digit c) ->
  (forall c, Ascii.eqb "#" (f c) = Ascii.eqb "#" c) ->
  shape (map_string f s) = option_map (map f) (shape s).
Proof.
  intros Hhex Hhash. destruct s as [|c rest]; [reflexivity|].
  cbn [map_string shape]. rewrite Hhash.
  destruct (Ascii.eqb "#" c).
  - now apply six_digits_map.
  - now apply (six_digits_map f (String c rest)).
Qed.

Lemma rgb_of_digits_map (f : ascii -> ascii) (ds : list ascii) :
  (forall c, digit_value (f c) = digit_value c) ->
  rgb_of_digits (map f ds) = rgb_of_digits ds.
Proof.
  intros Hf.
  do 6 (destruct ds as [|? ds]; [reflexivity|]).
  destruct ds; [|reflexivity].
  cbn [map rgb_of_digits]. unfold pair_value. now rewrite !Hf.
Qed.

Lemma hexToRgb_map (f : ascii -> ascii) (hex : string) :
  (forall c, is_hex_digit (f c) = is_hex_digit c) ->
  (forall c, Ascii.eqb "#" (f c) = Ascii.eqb "#" c) ->
  (forall c, digit_value (f c) = digit_value c) ->
  hexToRgb (map_string f hex) = hexToRgb hex.
Proof.
  intros Hhex Hhash Hval.
  rewrite !hexToRgb_shape, (shape_map f hex Hhex Hhash).
  destruct (shape hex) as [ds|]; cbn [option_map]; [|reflexivity].
  now apply rgb_of_digits_map.
Qed.

Lemma hex_char_digit (n : Z) :
  0 <= n < 16 ->
  is_hex_digit (hex_char n) = true /\ digit_value (hex_char n) = n.
Proof.
  intros Hn. rewrite <- (Z2Nat.id n) at 3 by lia. unfold hex_char.
  assert (Hk : (Z.to_nat n < 16)%nat) by lia.
  revert Hk. generalize (Z.to_nat n) as k. intros k Hk.
  do 16 (destruct k as [|k]; [split; reflexivity|]).
  lia.
Qed.

Lemma channel_digits_value (v : Z) :
  0 <= v <= 255 ->
  is_hex_digit (hex_char (v / 16)) = true /\
  is_hex_digit (hex_char (v mod 16)) = true /\
  pair_value (hex_char (v / 16)) (hex_char (v mod 16)) = v.
Proof.
  intros Hv.
  assert (Hq : 0 <= v / 16 < 16).
  { split; [apply Z.div_pos; lia | apply Z.div_lt_upper_bound; lia]. }
  assert (Hm : 0 <= v mod 16 < 16) by (apply Z.mod_pos_bound; lia).
  destruct (hex_char_digit _ Hq) as [Hq1 Hq2].
  destruct (hex_char_digit _ Hm) as [Hm1 Hm2].
  repeat split; try assumption.
  unfold pair_value. rewrite Hq2, Hm2.
  pose proof (Z.div_mod v 16 ltac:(lia)). lia.
Qed.

End HexToRgbFurther.

(** X1.  Whatever string it is given, [hexToRgb] returns a colour whose three
    channels are integers between 0 and 255. *)
Theorem hexToRgb_channels_in_range :
  forall hex : string, channels_in_range (hexToRgb hex).
Proof. intros hex. exact (hexToRgb_range hex). Qed.

(** X2.  The leading ["#"] is optional: a string that does not itself start
    with ["#"] denotes the same colour with and without one in front. *)
Theorem hexToRgb_hash_optional :
  forall hex : string,
    (forall rest, hex <> String "#" rest) ->
    hexToRgb (String "#" hex) = hexToRgb hex.
Proof.
  intros hex Hno. rewrite !hexToRgb_shape.
  cbn [shape]. rewrite Ascii.eqb_refl.
  destruct hex as [|c rest]; [reflexivity|].
  cbn [shape]. destruct (Ascii.eqb "#" c) eqn:Hc; [|reflexivity].
  apply Ascii.eqb_eq in Hc. subst c. now elim (Hno rest).
Qed.

Lemma hexToRgb_hash_optional_witness :
  hexToRgb "#1e90ff" = hexToRgb "1e90ff".
Proof.
  apply (hexToRgb_hash_optional "1e90ff"). intros rest; discriminate.
Defined.

(** X3.  [hexToRgb] does not tell the case of letters apart: a string, its
    upper-case form and its lower-case form denote the same colour. *)
Theorem hexToRgb_case_insensitive :
  forall hex : string,
    hexToRgb (map_string upper hex) = hexToRgb hex /\
    hexToRgb (map_string lower hex) = hexToRgb hex.
Proof.
  intros hex. split.
  - apply hexToRgb_map; [apply upper_hex | apply upper_hash | apply upper_value].
  - apply hexToRgb_map; [apply lower_hex | apply lower_hash | apply lower_value].
Qed.

(** X4.  Every colour with channels in 0..255 is denoted by a string:
    [hexToRgb] reads the ["#rrggbb"] notation of such a colour back as that
    colour. *)
Theorem hexToRgb_reads_notation :
  forall c : RGB, channels_in_range c -> hexToRgb (hex_of_rgb c) = c.
Proof.
  intros [cr cg cb] (Hr & Hg & Hb). cbn [r g b] in *.
  destruct (channel_digits_value cr Hr) as (Hr1 & Hr2 & Hr3).
  destruct (channel_digits_value cg Hg) as (Hg1 & Hg2 & Hg3).
  destruct (channel_digits_value cb Hb) as (Hb1 & Hb2 & Hb3).
  rewrite hexToRgb_shape. unfold hex_of_rgb, channel_digits.
  cbn [r g b shape String.append]. rewrite Ascii.eqb_refl.
  unfold six_digits. cbn [forallb].
  rewrite Hr1, Hr2, Hg1, Hg2, Hb1, Hb2. cbn [andb rgb_of_digits].
  now rewrite Hr3, Hg3, Hb3.
Qed.

Lemma hexToRgb_reads_notation_witness :
  hexToRgb (hex_of_rgb {| r := 30; g := 144; b := 255 |})
  = {| r := 30; g := 144; b := 255 |}.
Proof.
  apply (hexToRgb_reads_notation {| r := 30; g := 144; b := 255 |}).
  unfold channels_in_range; cbn; lia.
Defined.

Section ColorDifferenceFurther.

Local Open Scope R_scope.

(** The sum of the squares of three reals, under the square root of
    [euclidean]. *)
Lemma sum_squares_nonneg (u1 u2 u3 : R) : 0 <= Rsqr u1 + Rsqr u2 + Rsqr u3.
Proof.
  pose proof (Rle_0_sqr u1). pose proof (Rle_0_sqr u2).
  pose proof (Rle_0_sqr u3). lra.
Qed.

Lemma sum_squares_zero (u1 u2 u3 : R) :
  Rsqr u1 + Rsqr u2 + Rsqr u3 = 0 -> u1 = 0 /\ u2 = 0 /\ u3 = 0.
Proof.
  intros Hsum.
  pose proof (Rle_0_sqr u1) as H1. pose proof (Rle_0_sqr u2) as H2.
  pose proof (Rle_0_sqr u3) as H3.
  repeat split; apply Rsqr_0_uniq; lra.
Qed.

Lemma colorDifference_as_euclidean (hex1 hex2 : string) :
  colorDifference hex1 hex2 = euclidean (hexToRgb hex1) (hexToRgb hex2).
Proof.
  unfold colorDifference, euclidean, Rsqr. f_equal.
  rewrite !plus_IZR, !Z.pow_2_r, !mult_IZR, !minus_IZR. reflexivity.
Qed.

Lemma euclidean_zero (c1 c2 : RGB) : euclidean c1 c2 = 0 <-> c1 = c2.
Proof.
  split.
  - intros Hzero. unfold euclidean in Hzero.
    apply sqrt_eq_0 in Hzero; [|apply sum_squares_nonneg].
    apply sum_squares_zero in Hzero as (Hr & Hg & Hb).
    destruct c1 as [r1 g1 b1], c2 as [r2 g2 b2]; cbn [r g b] in *.
    apply Rminus_diag_uniq, eq_IZR in Hr, Hg, Hb. congruence.
  - intros ->. apply euclidean_self.
Qed.

Lemma euclidean_sym (c1 c2 : RGB) : euclidean c1 c2 = euclidean c2 c1.
Proof.
  unfold euclidean. f_equal.
  rewrite (Rsqr_neg_minus (IZR (r c1))), (Rsqr_neg_minus (IZR (g c1))),
    (Rsqr_neg_minus (IZR (b c1))). reflexivity.
Qed.

Lemma channel_square_bound (v w : Z) :
  (0 <= v <= 255)%Z -> (0 <= w <= 255)%Z ->
  Rsqr (IZR v - IZR w) <= 255 ^ 2.
Proof.
  intros Hv Hw.
  assert (H1 : -255 <= IZR v - IZR w <= 255).
  { destruct Hv as [Hv1 Hv2], Hw as [Hw1 Hw2].
    apply IZR_le in Hv1, Hv2, Hw1, Hw2. lra. }
  unfold Rsqr. nra.
Qed.

End ColorDifferenceFurther.

(** X5.  [colorDifference] is never negative, does not depend on the order of
    its arguments, and is 0 exactly when the two strings denote the same
    colour. *)
Theorem colorDifference_symmetric_and_separating :
  forall hex1 hex2 : string,
    (0 <= colorDifference hex1 hex2)%R /\
    colorDifference hex1 hex2 = colorDifference hex2 hex1 /\
    (colorDifference hex1 hex2 = 0%R <-> hexToRgb hex1 = hexToRgb hex2).
Proof.
  intros hex1 hex2. rewrite !colorDifference_as_euclidean.
  split; [apply sqrt_pos|]. split; [apply euclidean_sym|].
  apply euclidean_zero.
Qed.

(** X7.  No two strings are further apart than black and white:
    [colorDifference] is at most sqrt(3 * 255^2). *)
Theorem colorDifference_at_most_black_white :
  forall hex1 hex2 : string,
    (colorDifference hex1 hex2 <= sqrt (3 * 255 ^ 2))%R.
Proof.
  intros hex1 hex2. rewrite colorDifference_as_euclidean.
  destruct (hexToRgb_range hex1) as (Hr1 & Hg1 & Hb1).
  destruct (hexToRgb_range hex2) as (Hr2 & Hg2 & Hb2).
  unfold euclidean. apply sqrt_le_1_alt.
  pose proof (channel_square_bound _ _ Hr1 Hr2).
  pose proof (channel_square_bound _ _ Hg1 Hg2).
  pose proof (channel_square_bound _ _ Hb1 Hb2).
  lra.
Qed.

(** X8.  A string that is not six hexadecimal digits, optionally after one
    ["#"], counts as white: it is at the distance of white from every string,
    and so at distance 0 from every other such string. *)
Theorem colorDifference_malformed_is_white :
  forall hex1 hex2 : string,
    (forall ds, ~ well_shaped hex1 ds) ->
    colorDifference hex1 hex2 = colorDifference "#FFFFFF" hex2 /\
    ((forall ds, ~ well_shaped hex2 ds) -> colorDifference hex1 hex2 = 0%R).
Proof.
  intros hex1 hex2 Hbad1.
  assert (Hwhite : forall hex, (forall ds, ~ well_shaped hex ds) ->
                               hexToRgb hex = hexToRgb "#FFFFFF").
  { intros hex Hbad. rewrite (hexToRgb_shape hex).
    destruct (shape hex) as [ds|] eqn:Hs; [|reflexivity].
    apply shape_well_shaped in Hs. now elim (Hbad ds). }
  rewrite !colorDifference_as_euclidean, (Hwhite hex1 Hbad1).
  split; [reflexivity|].
  intros Hbad2. rewrite (Hwhite hex2 Hbad2). apply euclidean_self.
Qed.

Lemma colorDifference_malformed_is_white_witness :
  colorDifference "red" "#000000" = colorDifference "#FFFFFF" "#000000" /\
  colorDifference "red" "blue" = 0%R.
Proof.
  assert (Hshort : forall hex : string,
             (String.length hex < 6)%nat -> forall ds, ~ well_shaped hex ds).
  { intros hex Hlen ds (Hds & _ & Heq).
    do 6 (destruct ds as [|? ds]; [discriminate Hds|]).
    destruct Heq as [-> | ->]; cbn in Hlen; lia. }
  destruct (colorDifference_malformed_is_white "red" "#000000")
    as [Hwhite _]; [apply Hshort; cbn; lia|].
  destruct (colorDifference_malformed_is_white "red" "blue")
    as [_ Hzero]; [apply Hshort; cbn; lia|].
  split; [exact Hwhite | apply Hzero, Hshort; cbn; lia].
Defined.

(** ** Further properties of the classifier *)

Section ClassifierFurther.

Variable this : ImageGrouper.

Lemma sumAbsDiff_nonneg (pixel : PixelData) (target : RGB) :
  0 <= sumAbsDiff pixel target.
Proof. unfold sumAbsDiff. lia. Qed.

Lemma sumAbsDiff_zero (pixel : PixelData) (target : RGB) :
  sumAbsDiff pixel target = 0 <-> pixel_is pixel target.
Proof. unfold sumAbsDiff, pixel_is. lia. Qed.

Lemma sumAbsDiff_bound (pixel : PixelData) (target : RGB) :
  pixel_in_range pixel -> channels_in_range target ->
  sumAbsDiff pixel target <= 765.
Proof. unfold sumAbsDiff, pixel_in_range, channels_in_range. lia. Qed.

(** The test of [isBlankImage] on integers: three times the threshold
    bounds the sum over the three points. *)
Lemma isBlankImage_sum (image : Image) (blankColor : string) (threshold : Q) :
  isBlankImage this image (Some blankColor) (Some threshold) = true <->
  (inject_Z (sumAbsDiff (centrePixel image) (hexToRgb blankColor) +
             sumAbsDiff (quarterPixel image) (hexToRgb blankColor) +
             sumAbsDiff (threeQuarterPixel image) (hexToRgb blankColor))
   <= 3 * threshold)%Q.
Proof.
  rewrite isBlankImage_avgDiff, avgDiff_averageOfSums.
  unfold averageOfSums. cbv zeta.
  set (total := inject_Z _).
  split; intros Hle.
  - apply Qmult_le_l with (z := (/ 3)%Q); [reflexivity|].
    setoid_replace (/ 3 * (3 * threshold))%Q with threshold by field.
    setoid_replace (/ 3 * total)%Q with (total / 3)%Q by field.
    exact Hle.
  - apply Qmult_le_l with (z := 3%Q); [reflexivity|].
    setoid_replace (3 * (total / 3))%Q with total by field.
    exact Hle.
Qed.

End ClassifierFurther.

(** X9.  Raising the threshold never turns a blank image into a non-blank
    one. *)
Theorem isBlankImage_monotone_in_threshold :
  forall (this : ImageGrouper) (image : Image) (blankColor : string)
         (threshold threshold' : Q),
    (threshold <= threshold')%Q ->
    isBlankImage this image (Some blankColor) (Some threshold) = true ->
    isBlankImage this image (Some blankColor) (Some threshold') = true.
Proof.
  intros this image blankColor threshold threshold' Hle Hblank.
  apply isBlankImage_avgDiff. apply isBlankImage_avgDiff in Hblank.
  now apply Qle_trans with threshold.
Qed.

Lemma isBlankImage_monotone_in_threshold_witness :
  isBlankImage defaultGrouper nearWhite (Some "#FFFFFF") (Some 40%Q) = true.
Proof.
  apply (isBlankImage_monotone_in_threshold
           defaultGrouper nearWhite "#FFFFFF" 1%Q 40%Q);
    [discriminate | reflexivity].
Defined.

(** X10.  Under a negative threshold no image is blank; when the three
    sampled pixels have channels in 0..255, every image is blank under a
    threshold of 765 or more. *)
Theorem isBlankImage_threshold_extremes :
  forall (this : ImageGrouper) (image : Image) (blankColor : string)
         (threshold : Q),
    ((threshold < 0)%Q ->
     isBlankImage this image (Some blankColor) (Some threshold) = false) /\
    (pixel_in_range (centrePixel image) ->
     pixel_in_range (quarterPixel image) ->
     pixel_in_range (threeQuarterPixel image) ->
     (765 <= threshold)%Q ->
     isBlankImage this image (Some blankColor) (Some threshold) = true).
Proof.
  intros this image blankColor threshold.
  pose proof (sumAbsDiff_nonneg (centrePixel image) (hexToRgb blankColor)).
  pose proof (sumAbsDiff_nonneg (quarterPixel image) (hexToRgb blankColor)).
  pose proof (sumAbsDiff_nonneg (threeQuarterPixel image)
                                (hexToRgb blankColor)).
  split.
  - intros Hneg.
    destruct (isBlankImage this image (Some blankColor) (Some threshold))
      eqn:Hblank; [|reflexivity].
    apply isBlankImage_sum in Hblank. exfalso.
    set (total := _ + _ + _) in *.
    assert (Htotal : (inject_Z 0 <= inject_Z total)%Q)
      by (rewrite <- Zle_Qle; unfold total; lia).
    assert (H3 : (3 * threshold < 0)%Q).
    { setoid_replace 0%Q with (3 * 0)%Q by reflexivity.
      apply Qmult_lt_l; [reflexivity | exact Hneg]. }
    apply (Qlt_not_le _ _ H3). now apply Qle_trans with (inject_Z total).
  - intros Hc Hq Ht Hbig. apply isBlankImage_sum.
    pose proof (hexToRgb_range blankColor) as Hrange.
    pose proof (sumAbsDiff_bound _ _ Hc Hrange).
    pose proof (sumAbsDiff_bound _ _ Hq Hrange).
    pose proof (sumAbsDiff_bound _ _ Ht Hrange).
    set (total := _ + _ + _) in *.
    apply Qle_trans with (inject_Z 2295).
    + rewrite <- Zle_Qle. unfold total. lia.
    + setoid_replace (inject_Z 2295) with (3 * 765)%Q by reflexivity.
      apply Qmult_le_l; [reflexivity | exact Hbig].
Qed.

Lemma isBlankImage_threshold_extremes_witness :
  isBlankImage defaultGrouper B (Some "#FFFFFF") (Some (-1)%Q) = false /\
  isBlankImage defaultGrouper C (Some "#FFFFFF") (Some 765%Q) = true.
Proof.
  split.
  - apply (isBlankImage_threshold_extremes defaultGrouper B "#FFFFFF" (-1)%Q).
    reflexivity.
  - apply (isBlankImage_threshold_extremes defaultGrouper C "#FFFFFF" 765%Q);
      try (unfold pixel_in_range; cbn; lia).
    discriminate.
Defined.

(** X11.  Under the threshold 0 an image is blank exactly when each of its
    three sampled pixels has the red, green and blue channels of the blank
    colour. *)
Theorem isBlankImage_threshold_zero_exact :
  forall (this : ImageGrouper) (image : Image) (blankColor : string),
    isBlankImage this image (Some blankColor) (Some 0%Q) = true <->
    pixel_is (centrePixel image) (hexToRgb blankColor) /\
    pixel_is (quarterPixel image) (hexToRgb blankColor) /\
    pixel_is (threeQuarterPixel image) (hexToRgb blankColor).
Proof.
  intros this image blankColor.
  rewrite isBlankImage_sum, <- !sumAbsDiff_zero.
  pose proof (sumAbsDiff_nonneg (centrePixel image) (hexToRgb blankColor)).
  pose proof (sumAbsDiff_nonneg (quarterPixel image) (hexToRgb blankColor)).
  pose proof (sumAbsDiff_nonneg (threeQuarterPixel image)
                                (hexToRgb blankColor)).
  setoid_replace (3 * 0)%Q with (inject_Z 0) by reflexivity.
  rewrite <- Zle_Qle. lia.
Qed.

(** X12.  A blank colour that is not six hexadecimal digits, optionally after
    one ["#"], classifies every image as white does. *)
Theorem isBlankImage_malformed_colour_is_white :
  forall (this : ImageGrouper) (image : Image) (blankColor : string)
         (threshold : option Q),
    (forall ds, ~ well_shaped blankColor ds) ->
    isBlankImage this image (Some blankColor) threshold
    = isBlankImage this image (Some "#FFFFFF") threshold.
Proof.
  intros this image blankColor threshold Hbad.
  assert (Hwhite : hexToRgb blankColor = hexToRgb "#FFFFFF").
  { rewrite (hexToRgb_shape blankColor).
    destruct (shape blankColor) as [ds|] eqn:Hs; [|reflexivity].
    apply shape_well_shaped in Hs. now elim (Hbad ds). }
  unfold isBlankImage, avgDiff. cbn [JS.default_arg]. now rewrite Hwhite.
Qed.

Lemma isBlankImage_malformed_colour_is_white_witness :
  isBlankImage defaultGrouper nearWhite (Some "white") (Some 5%Q)
  = isBlankImage defaultGrouper nearWhite (Some "#FFFFFF") (Some 5%Q).
Proof.
  apply (isBlankImage_malformed_colour_is_white
           defaultGrouper nearWhite "white" (Some 5%Q)).
  intros ds (Hds & _ & Heq).
  do 6 (destruct ds as [|? ds]; [discriminate Hds|]).
  destruct Heq as [Heq | Heq]; discriminate Heq.
Defined.

(** X13.  With an integer threshold t an image is blank exactly when the sum,
    over the three sampled pixels, of the absolute channel differences against
    the blank colour is at most 3 * t. *)
Theorem isBlankImage_integer_threshold :
  forall (this : ImageGrouper) (image : Image) (blankColor : string) (t : Z),
    isBlankImage this image (Some blankColor) (Some (inject_Z t)) = true <->
    sumAbsDiff (centrePixel image) (hexToRgb blankColor) +
    sumAbsDiff (quarterPixel image) (hexToRgb blankColor) +
    sumAbsDiff (threeQuarterPixel image) (hexToRgb blankColor) <= 3 * t.
Proof.
  intros this image blankColor t.
  rewrite isBlankImage_sum.
  setoid_replace (3 * inject_Z t)%Q with (inject_Z (3 * t))
    by (rewrite inject_Z_mult; reflexivity).
  rewrite <- Zle_Qle. reflexivity.
Qed.

(** X14.  An image that declares a width and a height of 0 or 1 is sampled
    three times at the pixel (0,0): it is blank exactly when the sum of the
    absolute channel differences of that pixel against the blank colour is at
    most the threshold. *)
Theorem isBlankImage_single_pixel :
  forall (this : ImageGrouper) (image : Image) (blankColor : string)
         (threshold : Q),
    0 <= width image <= 1 -> 0 <= height image <= 1 ->
    (isBlankImage this image (Some blankColor) (Some threshold) = true <->
     (inject_Z (sumAbsDiff (getImageData image 0 0) (hexToRgb blankColor))
      <= threshold)%Q).
Proof.
  intros this image blankColor threshold Hw Hh.
  rewrite isBlankImage_sum.
  unfold centrePixel, quarterPixel, threeQuarterPixel.
  assert (Hw' : width image = 0 \/ width image = 1) by lia.
  assert (Hh' : height image = 0 \/ height image = 1) by lia.
  set (p := sumAbsDiff (getImageData image 0 0) (hexToRgb blankColor)).
  assert (Hsum : (inject_Z (p + p + p) == 3 * inject_Z p)%Q).
  { rewrite !inject_Z_plus. ring. }
  destruct Hw' as [-> | ->], Hh' as [-> | ->];
    change (0 / 2) with 0; change (0 / 4) with 0; change (3 * 0 / 4) with 0;
    change (1 / 2) with 0; change (1 / 4) with 0; change (3 * 1 / 4) with 0;
    fold p; rewrite Hsum;
    (split; intros Hle;
     [ apply Qmult_le_l with (z := 3%Q); [reflexivity | exact Hle]
     | apply Qmult_le_l; [reflexivity | exact Hle] ]).
Qed.

Lemma isBlankImage_single_pixel_witness :
  isBlankImage defaultGrouper (solid 1 1 250 250 250)
               (Some "#FFFFFF") (Some 15%Q) = true.
Proof.
  apply (isBlankImage_single_pixel
           defaultGrouper (solid 1 1 250 250 250) "#FFFFFF" 15%Q);
    [cbn; lia | cbn; lia | discriminate].
Defined.

(** ** Further properties of the grouping pass *)

Section GroupingFurther.

Variable this : ImageGrouper.
Variable blankColor : string.
Variable threshold : Q.

Let blank (image : Image) : bool :=
  isBlankImage this image (Some blankColor) (Some threshold).

Lemma flush_filter (groups : list (list Image)) (currentGroup : list Image) :
  (if (0 <? List.length currentGroup)%nat
   then groups ++ [currentGroup] else groups)
  = groups ++ filter nonEmpty [currentGroup].
Proof.
  destruct currentGroup; cbn; [now rewrite app_nil_r | reflexivity].
Qed.

Lemma splitOn_not_nil (images : list Image) : splitOn blank images <> [].
Proof.
  destruct images as [|image rest]; cbn; [discriminate|].
  destruct (blank image); [discriminate|].
  destruct (splitOn blank rest); discriminate.
Qed.

(** The loop and the flush after it, from any state of the accumulators. *)
Lemma groupLoop_split (images : list Image) :
  forall groups currentGroup,
    (let '(groups', currentGroup') :=
       groupLoop this blankColor threshold images groups currentGroup in
     if (0 <? List.length currentGroup')%nat
     then groups' ++ [currentGroup'] else groups')
    = groups ++ filter nonEmpty (attach currentGroup (splitOn blank images)).
Proof.
  induction images as [|image rest IH]; intros groups currentGroup.
  - cbn [groupLoop splitOn attach]. rewrite app_nil_r. apply flush_filter.
  - cbn [groupLoop splitOn]. fold (blank image).
    destruct (blank image).
    + cbn [attach]. rewrite app_nil_r.
      destruct currentGroup as [|first others].
      * cbn [List.length Nat.ltb Nat.leb filter nonEmpty].
        rewrite IH. pose proof (splitOn_not_nil rest) as Hne.
        destruct (splitOn blank rest) as [|piece pieces]; [congruence|].
        reflexivity.
      * cbn [List.length Nat.ltb Nat.leb filter nonEmpty].
        rewrite IH, <- app_assoc. pose proof (splitOn_not_nil rest) as Hne.
        destruct (splitOn blank rest) as [|piece pieces]; [congruence|].
        reflexivity.
    + rewrite IH. pose proof (splitOn_not_nil rest) as Hne.
      destruct (splitOn blank rest) as [|piece pieces]; [congruence|].
      cbn [attach]. now rewrite <- app_assoc.
Qed.

Lemma groupsWith_split (images : list Image) :
  groupsWith this blankColor threshold images
  = filter nonEmpty (splitOn blank images).
Proof.
  unfold groupsWith. rewrite (groupLoop_split images [] []).
  pose proof (splitOn_not_nil images) as Hne.
  destruct (splitOn blank images); [congruence | reflexivity].
Qed.

Lemma splitOn_delimiter (before after : list Image) (d : Image) :
  blank d = true ->
  splitOn blank (before ++ d :: after)
  = splitOn blank before ++ splitOn blank after.
Proof.
  intros Hd. induction before as [|image rest IH]; cbn [app splitOn].
  - now rewrite Hd.
  - rewrite IH. destruct (blank image); [reflexivity|].
    pose proof (splitOn_not_nil rest) as Hne.
    destruct (splitOn blank rest); [congruence | reflexivity].
Qed.

Lemma splitOn_length (images : list Image) :
  List.length (splitOn blank images)
  = S (List.length (filter blank images)).
Proof.
  induction images as [|image rest IH]; cbn [splitOn filter]; [reflexivity|].
  destruct (blank image); cbn [List.length]; [now rewrite IH|].
  pose proof (splitOn_not_nil rest) as Hne.
  destruct (splitOn blank rest); [congruence | exact IH].
Qed.

Lemma filter_length_le {T : Type} (f : T -> bool) (l : list T) :
  (List.length (filter f l) <= List.length l)%nat.
Proof.
  induction l as [|a l IH]; cbn; [lia|]. destruct (f a); cbn; lia.
Qed.

Lemma nonempty_groups_length (groups : list (list Image)) :
  Forall (fun group => group <> []) groups ->
  (List.length groups <= List.length (List.concat groups))%nat.
Proof.
  induction 1 as [|group groups Hgroup _ IH]; cbn [List.concat List.length];
    [lia|].
  rewrite length_app. destruct group; [congruence | cbn; lia].
Qed.

(** Where the pieces lie: the first one opens the list and stops at a
    delimiter or at the end; every other one lies between a delimiter and a
    delimiter or the end. *)
Lemma splitOn_pieces (images : list Image) :
  match splitOn blank images with
  | first :: others =>
      (exists after, images = first ++ after /\
                     starts_with_delimiter blank after) /\
      Forall (fun piece =>
                exists before after,
                  images = before ++ piece ++ after /\
                  (exists before' d, before = before' ++ [d] /\
                                     blank d = true) /\
                  starts_with_delimiter blank after)
             others
  | [] => False
  end.
Proof.
  induction images as [|image rest IH]; cbn [splitOn].
  - split; [|constructor]. exists []. split; [reflexivity | now left].
  - destruct (splitOn blank rest) as [|first others]; [contradiction|].
    destruct IH as [(after & Hrest & Hafter) Hothers].
    destruct (blank image) eqn:Himage.
    + split.
      * exists (image :: rest). split; [reflexivity|].
        right. now exists image, rest.
      * constructor.
        -- exists [image], after. split; [now rewrite Hrest|].
           split; [now exists [], image | assumption].
        -- eapply Forall_impl; [|exact Hothers].
           intros piece (before & after' & Heq & (before' & d & Hb & Hd) & Ha).
           exists (image :: before), after'.
           split; [now rewrite Heq|].
           split; [|assumption].
           exists (image :: before'), d. now rewrite Hb.
    + split.
      * exists after. split; [now rewrite Hrest | assumption].
      * eapply Forall_impl; [|exact Hothers].
        intros piece (before & after' & Heq & (before' & d & Hb & Hd) & Ha).
        exists (image :: before), after'.
        split; [now rewrite Heq|].
        split; [|assumption].
        exists (image :: before'), d. now rewrite Hb.
Qed.

Lemma splitOn_maximal_runs (images group : list Image) :
  In group (splitOn blank images) ->
  exists before after,
    images = before ++ group ++ after /\
    ends_with_delimiter blank before /\
    starts_with_delimiter blank after.
Proof.
  intros Hin. pose proof (splitOn_pieces images) as Hpieces.
  destruct (splitOn blank images) as [|first others]; [contradiction|].
  destruct Hpieces as [(after & Heq & Hafter) Hothers].
  destruct Hin as [<- | Hin].
  - exists [], after. split; [exact Heq|]. split; [now left | assumption].
  - rewrite Forall_forall in Hothers.
    destruct (Hothers group Hin) as (before & after' & Heq' & Hb & Ha).
    exists before, after'. split; [exact Heq'|].
    split; [now right | assumption].
Qed.

End GroupingFurther.

Section GroupImagesFurther.

Variable this : ImageGrouper.
Variable options : Options.

Lemma groupImages_split (images : list Image) :
  images_of (groupImages this images options)
  = filter nonEmpty (splitOn (delimiter this options) images).
Proof. rewrite groupImages_groupsWith. apply groupsWith_split. Qed.

End GroupImagesFurther.

(** X15.  [groupImages] splits its input at the delimiters and drops the
    empty pieces: its groups are the non-empty pieces of the input between
    the images classified blank, in order. *)
Theorem groupImages_splits_on_delimiters :
  forall (this : ImageGrouper) (images : list Image) (options : Options),
    images_of (groupImages this images options)
    = filter nonEmpty (splitOn (delimiter this options) images).
Proof. intros this images options. apply groupImages_split. Qed.

(** X16.  Grouping distributes over a delimiter: the groups of a list with a
    blank image in it are the groups of the part before that image followed
    by the groups of the part after it. *)
Theorem groupImages_at_delimiter :
  forall (this : ImageGrouper) (options : Options)
         (before after : list Image) (d : Image),
    delimiter this options d = true ->
    images_of (groupImages this (before ++ d :: after) options)
    = images_of (groupImages this before options)
      ++ images_of (groupImages this after options).
Proof.
  intros this options before after d Hd.
  rewrite !groupImages_split, <- filter_app. f_equal.
  now apply splitOn_delimiter.
Qed.

Lemma groupImages_at_delimiter_witness :
  images_of (groupImages defaultGrouper ([A; C] ++ B :: [D; B; E]) noOptions)
  = images_of (groupImages defaultGrouper [A; C] noOptions)
    ++ images_of (groupImages defaultGrouper [D; B; E] noOptions).
Proof.
  apply (groupImages_at_delimiter defaultGrouper noOptions [A; C] [D; B; E] B).
  reflexivity.
Defined.

(** X17.  Every group is a maximal run of the input: it lies in the input as
    one stretch of consecutive images, none of them classified blank, that
    starts at the beginning of the input or right after a delimiter and stops
    at the end of the input or right before a delimiter. *)
Theorem groupImages_groups_are_maximal_runs :
  forall (this : ImageGrouper) (images : list Image) (options : Options)
         (group : list Image),
    In group (images_of (groupImages this images options)) ->
    Forall (fun image => delimiter this options image = false) group /\
    exists before after,
      images = before ++ group ++ after /\
      ends_with_delimiter (delimiter this options) before /\
      starts_with_delimiter (delimiter this options) after.
Proof.
  intros this images options group Hin. split.
  - apply Forall_forall. intros image Himage.
    assert (Hconcat : In image (List.concat
                                  (images_of (groupImages this images options))))
      by (apply in_concat; eauto).
    rewrite groupImages_groupsWith, groupsWith_concat in Hconcat.
    apply filter_In in Hconcat as [_ Hnon].
    now apply negb_true_iff in Hnon.
  - rewrite groupImages_split in Hin. apply filter_In in Hin as [Hin _].
    now apply splitOn_maximal_runs.
Qed.

Lemma groupImages_groups_are_maximal_runs_witness :
  Forall (fun image => delimiter defaultGrouper noOptions image = false)
         [C; D] /\
  exists before after,
    [A; B; C; D; B; E] = before ++ [C; D] ++ after /\
    ends_with_delimiter (delimiter defaultGrouper noOptions) before /\
    starts_with_delimiter (delimiter defaultGrouper noOptions) after.
Proof.
  apply (groupImages_groups_are_maximal_runs
           defaultGrouper [A; B; C; D; B; E] noOptions [C; D]).
  cbn. right; left; reflexivity.
Defined.

(** X18.  There are at most as many groups as there are delimiters plus one,
    and at most as many as there are images not classified blank. *)
Theorem groupImages_number_of_groups :
  forall (this : ImageGrouper) (images : list Image) (options : Options),
    (List.length (images_of (groupImages this images options))
     <= S (List.length (filter (delimiter this options) images)))%nat /\
    (List.length (images_of (groupImages this images options))
     <= List.length (filter (fun image => negb (delimiter this options image))
                            images))%nat.
Proof.
  intros this images options. split.
  - rewrite groupImages_split.
    unfold delimiter. rewrite <- splitOn_length. apply filter_length_le.
  - pose proof (nonempty_groups_length
                  (images_of (groupImages this images options))) as Hlen.
    rewrite groupImages_groupsWith in *.
    rewrite groupsWith_concat in Hlen. apply Hlen, groupsWith_nonempty.
Qed.

(** X19.  A grouper built without configuration and called without options
    keeps exactly the images that [isBlankImage], called without a colour and
    a threshold, does not classify as blank. *)
Theorem groupImages_defaults_agree :
  forall (this : ImageGrouper) (images : list Image),
    List.concat (images_of (groupImages (constructor noConfig) images noOptions))
    = filter (fun image => negb (isBlankImage this image None None)) images.
Proof.
  intros this images.
  rewrite groupImages_groupsWith. apply groupsWith_concat.
Qed.

(** ** Further properties of saving *)

Section SavingFurther.

Variable this : ImageGrouper.

Lemma nth_error_mapi_from {T U : Type} (f : T -> nat -> U) (l : list T) :
  forall start i,
    nth_error (mapi_from start f l) i
    = option_map (fun a => f a (start + i)%nat) (nth_error l i).
Proof.
  induction l as [|a l IH]; intros start [|i]; cbn [mapi_from nth_error option_map];
    try reflexivity.
  - now rewrite Nat.add_0_r.
  - rewrite IH. now rewrite Nat.add_succ_comm.
Qed.

Lemma In_mapi_from {T U : Type} (f : T -> nat -> U) (l : list T) (u : U) :
  forall start,
    In u (mapi_from start f l) ->
    exists a i, (start <= i)%nat /\ u = f a i.
Proof.
  induction l as [|a l IH]; intros start; cbn [mapi_from In]; [tauto|].
  intros [<- | Hin].
  - exists a, start. split; [lia | reflexivity].
  - destruct (IH _ Hin) as (a' & i & Hi & ->).
    exists a', i. split; [lia | reflexivity].
Qed.

Lemma string_append_assoc (s1 s2 s3 : string) :
  ((s1 ++ s2) ++ s3 = s1 ++ (s2 ++ s3))%string.
Proof. induction s1 as [|c s1 IH]; cbn; [reflexivity | now rewrite IH]. Qed.

Lemma append_cancel_l (p s1 s2 : string) :
  (p ++ s1 = p ++ s2)%string -> s1 = s2.
Proof.
  induction p as [|c p IH]; cbn; [auto|]. intros [= H]. auto.
Qed.

(** A decimal numeral stops at the first ["-"] after it. *)
Lemma numeral_then_dash (d d' : Decimal.uint) (s s' : string) :
  (NilEmpty.string_of_uint d ++ String "-" s
   = NilEmpty.string_of_uint d' ++ String "-" s')%string ->
  d = d' /\ s = s'.
Proof.
  revert d'. induction d as [|d IH|d IH|d IH|d IH|d IH|d IH|d IH|d IH|d IH|d IH];
    intros [|d'|d'|d'|d'|d'|d'|d'|d'|d'|d']; cbn; intros Heq;
    try discriminate Heq;
    try (injection Heq as Heq; destruct (IH _ Heq) as [-> ->]; now split).
  injection Heq as ->. now split.
Qed.

Lemma number_to_string_inj (n n' : nat) :
  JS.number_to_string n = JS.number_to_string n' -> n = n'.
Proof.
  unfold JS.number_to_string. intros Heq.
  apply DecimalNat.Unsigned.to_uint_inj.
  pose proof (NilEmpty.usu (Nat.to_uint n)) as Hn.
  rewrite Heq, NilEmpty.usu in Hn. congruence.
Qed.

(** Two images are saved under the same name only at the same indices. *)
Lemma savedName_inj (i j i' j' : nat) :
  savedName this i j = savedName this i' j' -> i = i' /\ j = j'.
Proof.
  unfold savedName. rewrite !string_append_assoc. intros Heq.
  apply append_cancel_l in Heq.
  change ("-image" ++ ?s)%string with (String "-" ("image" ++ s)%string) in Heq.
  unfold JS.number_to_string in Heq at 1 3.
  apply numeral_then_dash in Heq as [Hi Hj].
  apply append_cancel_l, number_to_string_inj in Hj.
  apply DecimalNat.Unsigned.to_uint_inj in Hi. lia.
Qed.

Lemma saveGroups_savedGroupAt (groups : list (list Image)) :
  saveGroups this groups = mapi (savedGroupAt this) groups.
Proof. reflexivity. Qed.

Lemma savedGroupAt_names (group : list Image) (groupIndex : nat) :
  forall start,
    NoDup (map newName
               (mapi_from start
                          (fun image imageIndex =>
                             saveImage this image
                                       (savedName this groupIndex imageIndex))
                          group)).
Proof.
  induction group as [|first others IH]; intros start;
    cbn [mapi_from map]; constructor; [|apply IH].
  intros Hin. apply in_map_iff in Hin as (saved & Hname & Hin).
  apply In_mapi_from in Hin as (a & i & Hi & ->).
  cbn in Hname. apply savedName_inj in Hname. lia.
Qed.

Lemma saveGroups_names_from (groups : list (list Image)) :
  forall start,
    NoDup (map newName
               (List.concat (mapi_from start (savedGroupAt this) groups))).
Proof.
  induction groups as [|group rest IH]; intros start;
    cbn [mapi_from List.concat map]; [constructor|].
  rewrite map_app. apply NoDup_app.
  - apply savedGroupAt_names.
  - apply IH.
  - intros name Hfirst Hrest.
    apply in_map_iff in Hfirst as (saved & <- & Hfirst).
    apply In_mapi_from in Hfirst as (a & j & _ & ->).
    apply in_map_iff in Hrest as (saved' & Hname & Hrest).
    apply in_concat in Hrest as (savedGroup & HsavedGroup & Hsaved').
    apply In_mapi_from in HsavedGroup as (group' & i & Hi & ->).
    apply In_mapi_from in Hsaved' as (a' & j' & _ & ->).
    cbn in Hname. apply savedName_inj in Hname. lia.
Qed.

End SavingFurther.

(** X20.  Saving keeps the groups as they are: the saved groups carry, group
    by group and in order, exactly the images of the groups. *)
Theorem saveGroups_keeps_images :
  forall (this : ImageGrouper) (groups : list (list Image)),
    map (map image) (saveGroups this groups) = groups.
Proof. intros this groups. apply saveGroups_images. Qed.

(** X21.  Names count from 1: the image at index j of the group at index i is
    saved under the naming scheme followed by i+1, ["-image"] and j+1. *)
Theorem saveGroups_names_from_one :
  forall (this : ImageGrouper) (groups : list (list Image)) (i j : nat)
         (group : list Image) (picture : Image),
    nth_error groups i = Some group ->
    nth_error group j = Some picture ->
    exists savedGroup,
      nth_error (saveGroups this groups) i = Some savedGroup /\
      nth_error savedGroup j
      = Some {| image := picture;
                newName := (namingScheme (config this)
                            ++ JS.number_to_string (i + 1)
                            ++ "-image"
                            ++ JS.number_to_string (j + 1))%string |}.
Proof.
  intros this groups i j group picture Hgroup Himage.
  rewrite saveGroups_savedGroupAt. unfold mapi.
  rewrite nth_error_mapi_from, Hgroup. cbn [option_map Nat.add].
  eexists. split; [reflexivity|].
  unfold savedGroupAt, mapi.
  rewrite nth_error_mapi_from, Himage. cbn [option_map Nat.add].
  unfold saveImage, savedName. now rewrite string_append_assoc.
Qed.

Lemma saveGroups_names_from_one_witness :
  exists savedGroup,
    nth_error (saveGroups defaultGrouper [[A]; [C; D]; [E]]) 1
    = Some savedGroup /\
    nth_error savedGroup 1
    = Some {| image := D; newName := "group2-image2" |}.
Proof.
  apply (saveGroups_names_from_one
           defaultGrouper [[A]; [C; D]; [E]] 1 1 [C; D] D);
    reflexivity.
Defined.

(** X22.  No two images are saved under the same name, within a group or
    across groups, whatever the naming scheme. *)
Theorem saveGroups_names_unique :
  forall (this : ImageGrouper) (groups : list (list Image)),
    NoDup (map newName (List.concat (saveGroups this groups))).
Proof.
  intros this groups. rewrite saveGroups_savedGroupAt.
  apply saveGroups_names_from.
Qed.

(** X23.  Asking [groupImages] to save changes the wrapping only: the result
    with saving is the saving of the groups of the result without. *)
Theorem groupImages_saves_its_groups :
  forall (this : ImageGrouper) (images : list Image)
         (blankColor : option string) (threshold : option Q),
  exists groups,
    groupImages this images (mkOptions blankColor threshold None)
    = Groups groups /\
    groupImages this images (mkOptions blankColor threshold (Some false))
    = Groups groups /\
    groupImages this images (mkOptions blankColor threshold (Some true))
    = SavedGroups (saveGroups this groups).
Proof.
  intros this images blankColor threshold.
  exists (groupsWith this
            (cfg_blankColor (callConfig this (mkOptions blankColor threshold None)))
            (cfg_threshold (callConfig this (mkOptions blankColor threshold None)))
            images).
  unfold groupImages, groupsWith.
  cbn [callConfig cfg_blankColor cfg_threshold cfg_saveGroups opt_blankColor
       opt_threshold opt_saveGroups JS.or_else JS.truthy_bool].
  destruct (groupLoop _ _ _ images [] []) as [groups currentGroup].
  auto.
Qed.

(** X24.  A delimiter at the start or at the end of the input changes
    nothing: the groups are those of the input without it. *)
Theorem groupImages_outer_delimiters :
  forall (this : ImageGrouper) (options : Options) (images : list Image)
         (d : Image),
    delimiter this options d = true ->
    images_of (groupImages this (d :: images) options)
    = images_of (groupImages this images options) /\
    images_of (groupImages this (images ++ [d]) options)
    = images_of (groupImages this images options).
Proof.
  intros this options images d Hd. rewrite !groupImages_split. split.
  - cbn [splitOn]. rewrite Hd. reflexivity.
  - unfold delimiter in *. rewrite splitOn_delimiter by exact Hd.
    rewrite filter_app. cbn. apply app_nil_r.
Qed.

Lemma groupImages_outer_delimiters_witness :
  images_of (groupImages defaultGrouper (B :: [A; B; C]) noOptions)
  = images_of (groupImages defaultGrouper [A; B; C] noOptions) /\
  images_of (groupImages defaultGrouper ([A; B; C] ++ [B]) noOptions)
  = images_of (groupImages defaultGrouper [A; B; C] noOptions).
Proof.
  apply (groupImages_outer_delimiters defaultGrouper noOptions [A; B; C] B).
  reflexivity.
Defined.

(** ** The sampling and the overrides *)

(** C9.  The classifier samples exactly 3 points: the floors of (w/2, h/2),
    of (w/4, h/4) and of (3w/4, 3h/4), for the width w and the height h that
    the image itself declares.  The total difference is the sum of the
    differences of the pixels read at these three points, which is what the
    classification compares with the threshold; the classification depends
    on the image through nothing but its size and these three pixels. *)
Theorem samplePoints_three_floor_points :
  forall (this : ImageGrouper) (image : Image),
    (exists p1 p2 p3,
        samplePoints image = [p1; p2; p3] /\
        is_floor_of (x p1) (width image) 2 /\
        is_floor_of (y p1) (height image) 2 /\
        is_floor_of (x p2) (width image) 4 /\
        is_floor_of (y p2) (height image) 4 /\
        is_floor_of (x p3) (3 * width image) 4 /\
        is_floor_of (y p3) (3 * height image) 4 /\
        (forall targetRGB,
            totalDiff image targetRGB
            = sumAbsDiff (getImageData image (x p1) (y p1)) targetRGB +
              sumAbsDiff (getImageData image (x p2) (y p2)) targetRGB +
              sumAbsDiff (getImageData image (x p3) (y p3)) targetRGB) /\
        (forall blankColor (threshold : Z),
            isBlankImage this image (Some blankColor)
                         (Some (inject_Z threshold)) = true <->
            sumAbsDiff (getImageData image (x p1) (y p1))
                       (hexToRgb blankColor) +
            sumAbsDiff (getImageData image (x p2) (y p2))
                       (hexToRgb blankColor) +
            sumAbsDiff (getImageData image (x p3) (y p3))
                       (hexToRgb blankColor)
            <= 3 * threshold)) /\
    (forall (image' : Image) blankColor threshold,
        width image' = width image ->
        height image' = height image ->
        Forall (fun p => getImageData image' (x p) (y p) =
                         getImageData image (x p) (y p))
               (samplePoints image) ->
        isBlankImage this image' blankColor threshold =
        isBlankImage this image blankColor threshold).
Proof.
  intros this image. split.
  - do 3 eexists. split; [reflexivity|].
    cbn [x y]. repeat (split; [apply floor_div; lia|]). split.
    + intros targetRGB. unfold totalDiff, samplePoints, diff, sumAbsDiff.
      cbn [fold_left x y]. lia.
    + intros blankColor threshold.
      rewrite (isBlankImage_sum this image blankColor (inject_Z threshold)).
      setoid_replace (3 * inject_Z threshold)%Q with (inject_Z (3 * threshold))
        by (rewrite inject_Z_mult; reflexivity).
      rewrite <- Zle_Qle. reflexivity.
  - intros image' blankColor threshold Hw Hh Hpix.
    unfold isBlankImage, avgDiff.
    now rewrite (totalDiff_agree image image' _ Hw Hh Hpix),
      (samplePoints_size image image' Hw Hh).
Qed.

Lemma samplePoints_three_floor_points_witness :
  isBlankImage (constructor noConfig) lightGreySpot (Some "#FFFFFF") (Some 30%Q)
  = isBlankImage (constructor noConfig) lightGrey (Some "#FFFFFF") (Some 30%Q).
Proof.
  apply (samplePoints_three_floor_points (constructor noConfig) lightGrey);
    [reflexivity | reflexivity | repeat constructor].
Defined.

(** C3, amended.  [groupImages] classifies with the blank colour and the
    threshold of its options when they are a non-empty string and a number
    other than 0, and with the configured [delimiterColor] and
    [colorThreshold] when the options omit them: its groups are the non-empty
    pieces of the input between the images that [isBlankImage] classifies as
    blank under that colour and that threshold.  [isBlankImage], called
    directly, classifies with the colour and the threshold it is given, and
    with ["#FFFFFF"] and 10 when they are omitted, whatever the configuration
    of the grouper: it compares the differences against the colour it is
    given with the threshold it is given. *)
Theorem overrides_and_defaults :
  forall (this : ImageGrouper),
    (forall images options blankColor threshold,
        (opt_blankColor options = Some blankColor /\ blankColor <> ""
         \/ opt_blankColor options = None /\
            blankColor = delimiterColor (config this)) ->
        (opt_threshold options = Some threshold /\ ~ (threshold == 0)%Q
         \/ opt_threshold options = None /\
            threshold = colorThreshold (config this)) ->
        cfg_blankColor (callConfig this options) = blankColor /\
        cfg_threshold (callConfig this options) = threshold /\
        images_of (groupImages this images options)
        = filter nonEmpty
                 (splitOn (fun image =>
                             isBlankImage this image (Some blankColor)
                                          (Some threshold))
                          images)) /\
    (forall (other : ImageGrouper) image given_colour given_threshold
            blankColor threshold,
        (given_colour = Some blankColor
         \/ given_colour = None /\ blankColor = "#FFFFFF") ->
        (given_threshold = Some threshold
         \/ given_threshold = None /\ threshold = 10%Q) ->
        isBlankImage this image given_colour given_threshold
        = isBlankImage other image (Some blankColor) (Some threshold)) /\
    (forall image blankColor (threshold : Z),
        isBlankImage this image (Some blankColor) (Some (inject_Z threshold))
        = true <->
        sumAbsDiff (centrePixel image) (hexToRgb blankColor) +
        sumAbsDiff (quarterPixel image) (hexToRgb blankColor) +
        sumAbsDiff (threeQuarterPixel image) (hexToRgb blankColor)
        <= 3 * threshold).
Proof.
  intros this. split; [|split].
  - intros images [oc ot os] blankColor threshold Hcolor Hthreshold.
    rewrite groupImages_groupsWith.
    cbn [callConfig cfg_blankColor cfg_threshold opt_blankColor opt_threshold]
      in *.
    assert (Hc : JS.or_else JS.truthy_string oc (delimiterColor (config this))
                 = blankColor).
    { destruct Hcolor as [[-> Hne] | [-> ->]]; [|reflexivity].
      destruct blankColor; [congruence | reflexivity]. }
    assert (Ht : JS.or_else JS.truthy_number ot (colorThreshold (config this))
                 = threshold).
    { destruct Hthreshold as [[-> Hne] | [-> ->]]; [|reflexivity].
      unfold JS.or_else, JS.truthy_number.
      destruct (Qeq_bool threshold 0) eqn:Hzero; [|reflexivity].
      apply Qeq_bool_iff in Hzero. contradiction. }
    rewrite Hc, Ht. split; [reflexivity|]. split; [reflexivity|].
    apply groupsWith_split.
  - intros other image given_colour given_threshold blankColor threshold
           Hcolor Hthreshold.
    destruct Hcolor as [-> | [-> ->]], Hthreshold as [-> | [-> ->]];
      reflexivity.
  - intros image blankColor threshold.
    rewrite (isBlankImage_sum this image blankColor (inject_Z threshold)).
    setoid_replace (3 * inject_Z threshold)%Q with (inject_Z (3 * threshold))
      by (rewrite inject_Z_mult; reflexivity).
    rewrite <- Zle_Qle. reflexivity.
Qed.

Lemma overrides_and_defaults_witness :
  (images_of (groupImages redGrouper [A; redPage; C]
                          (mkOptions (Some "#000000") (Some 5%Q) None))
   = [[A; redPage]] /\
   images_of (groupImages redGrouper [A; redPage; C] noOptions)
   = [[A]; [C]]) /\
  isBlankImage redGrouper redPage None None
  = isBlankImage defaultGrouper redPage (Some "#FFFFFF") (Some 10%Q).
Proof.
  destruct (overrides_and_defaults redGrouper) as (Hgroup & Hdirect & _).
  split; [split|].
  - apply (Hgroup [A; redPage; C]
                  (mkOptions (Some "#000000") (Some 5%Q) None) "#000000" 5%Q).
    + left. split; [reflexivity | discriminate].
    + left. split; [reflexivity | discriminate].
  - apply (Hgroup [A; redPage; C] noOptions "#FF0000" 20%Q).
    + right. split; reflexivity.
    + right. split; reflexivity.
  - apply (Hdirect defaultGrouper redPage None None "#FFFFFF" 10%Q).
    + right. split; reflexivity.
    + right. split; reflexivity.
Defined.
